(** * B23CM1046: minimax / alpha-beta agent for the 4x8 mini-chess

    Shallow embedding of [src/B23CM1046.py] (class [B23CM1046]) and the
    properties of its search and evaluation.

    The agent talks to two modules that are not part of the file:
    [config] (board dimensions, piece identities, [PIECE_VALUES] and the
    piece-square tables) and [board] (the shared, mutable position with
    [get_legal_moves], [make_move], [undo_move], [is_in_check],
    [get_game_state], [white_to_move] and the grid [board]).  Both are
    taken as parameters: [Config] and [BoardAPI] below. *)

From stdpp Require Import base option list strings gmap.
From Stdlib Require Import ZArith Lia OrdersTac.

Local Open Scope Z_scope.

(** ** Scores

    The search mixes Python ints with [math.inf] and [-math.inf]. *)

Inductive Score : Type :=
| NegInf
| Fin (z : Z)
| PosInf.

Module Score.

(** [a < b] on scores. *)
Definition ltb (a b : Score) : bool :=
  match a, b with
  | NegInf, NegInf => false
  | NegInf, _ => true
  | Fin _, NegInf => false
  | Fin x, Fin y => x <? y
  | Fin _, PosInf => true
  | PosInf, _ => false
  end.

(** [a >= b], the cutoff test [alpha >= beta]. *)
Definition geb (a b : Score) : bool := negb (ltb a b).

(** Python's [max(a, b)]: [b] only when [b > a]. *)
Definition max (a b : Score) : Score := if ltb a b then b else a.

(** Python's [min(a, b)]: [b] only when [b < a]. *)
Definition min (a b : Score) : Score := if ltb b a then b else a.

Definition lt (a b : Score) : Prop := ltb a b = true.
Definition le (a b : Score) : Prop := ltb b a = false.

Definition is_fin (a : Score) : Prop :=
  match a with Fin _ => True | _ => False end.

End Score.

(** ** The [config] module, as a parameter

    A table of [config] is read as [T[r][c]] with [r < BOARD_HEIGHT] and
    [c < BOARD_WIDTH] only; it is modelled by its read function. *)

Definition Table : Type := nat → nat → Z.

Class Config : Type := {
  BOARD_WIDTH : nat;
  BOARD_HEIGHT : nat;
  EMPTY_SQUARE : string;
  WHITE_PAWN : string;
  BLACK_PAWN : string;
  WHITE_KNIGHT : string;
  BLACK_KNIGHT : string;
  WHITE_BISHOP : string;
  BLACK_BISHOP : string;
  WHITE_KING : string;
  BLACK_KING : string;
  PIECE_VALUES : gmap string Z;
  PAWN_PST : Table;
  KNIGHT_PST : Table;
  BISHOP_PST : Table;
  KING_PST_LATE_GAME : Table;
}.

(** ** The [board] collaborator, as a parameter

    [Board] is the whole state of the board object.  The three queries the
    agent uses are reads; [make_move] and [undo_move] are the only calls
    that change the object. *)

Class BoardAPI : Type := {
  Board : Type;
  Move : Type;
  grid : Board → nat → nat → string;
  white_to_move : Board → bool;
  get_legal_moves : Board → list Move;
  make_move : Move → Board → Board;
  undo_move : Board → Board;
  is_in_check : Board → bool;
  get_game_state : Board → string;
}.

(** The part of the collaborator's contract the search relies on:
    [undo_move] reverses the most recent [make_move]. *)
Class BoardLaws (api : BoardAPI) : Prop := {
  undo_make : ∀ (b : Board) (mv : Move),
    mv ∈ get_legal_moves b → undo_move (make_move mv b) = b;
}.

(** ** Evaluator *)

Section Evaluator.
Context {cfg : Config}.

(** [_pst_value(piece, r, c)] *)
Definition _pst_value (piece : string) (r c : nat) : Z :=
  if String.eqb piece WHITE_PAWN then PAWN_PST r c
  else if String.eqb piece BLACK_PAWN then - PAWN_PST (BOARD_HEIGHT - 1 - r)%nat c
  else if String.eqb piece WHITE_KNIGHT then KNIGHT_PST r c
  else if String.eqb piece BLACK_KNIGHT then - KNIGHT_PST (BOARD_HEIGHT - 1 - r)%nat c
  else if String.eqb piece WHITE_BISHOP then BISHOP_PST r c
  else if String.eqb piece BLACK_BISHOP then - BISHOP_PST (BOARD_HEIGHT - 1 - r)%nat c
  else if String.eqb piece WHITE_KING then KING_PST_LATE_GAME r c
  else if String.eqb piece BLACK_KING then - KING_PST_LATE_GAME (BOARD_HEIGHT - 1 - r)%nat c
  else 0.

(** [_has_king(white)], reading the grid [b]: the first hit returns
    [True]. *)
Definition _has_king (b : nat → nat → string) (white : bool) : bool :=
  let target := if white then WHITE_KING else BLACK_KING in
  existsb (λ r, existsb (λ c, String.eqb (b r c) target) (seq 0 BOARD_WIDTH))
          (seq 0 BOARD_HEIGHT).

(** The body of the two nested [for] loops of [evaluate_board], at
    cell [(r, c)], with the running [score]. *)
Definition cell_step (b : nat → nat → string) (r : nat) (score : Z) (c : nat) : Z :=
  let p := b r c in
  if String.eqb p EMPTY_SQUARE then score
  else
    let score := score + default 0 (PIECE_VALUES !! p) in
    let pst_val := _pst_value p r c in
    score + pst_val.

(** The two loops: material and piece-square sum of the grid. *)
Definition material_pst (b : nat → nat → string) : Z :=
  foldl (λ score r, foldl (cell_step b r) score (seq 0 BOARD_WIDTH))
        0 (seq 0 BOARD_HEIGHT).

(** The check adjustment of [evaluate_board] (the [if] on
    [is_in_check()]). *)
Definition check_adjust (root_is_white wtm in_check : bool) (score : Z) : Z :=
  if in_check then
    if Bool.eqb wtm root_is_white then score - 2 else score + 2
  else score.

(** The value of [score] when [evaluate_board] reaches its [return], as a
    function of what the method reads: [root_is_white],
    [board.white_to_move], [board.is_in_check()] and the grid. *)
Definition raw_score (root_is_white wtm in_check : bool) (b : nat → nat → string) : Z :=
  let score := material_pst b in
  let score := check_adjust root_is_white wtm in_check score in
  let score := if negb (_has_king b true) then score - 300 else score in
  let score := if negb (_has_king b false) then score + 300 else score in
  score.

(** [evaluate_board]: [score if self.root_is_white else -score]. *)
Definition evaluate (root_is_white wtm in_check : bool) (b : nat → nat → string) : Z :=
  let score := raw_score root_is_white wtm in_check b in
  if root_is_white then score else - score.

End Evaluator.

(** ** The agent and its environment

    [State] holds the fields of [self] the methods read or write, the
    wall clock, and two histories that the program does not have and that
    only record what it did (they are never read by the code):
    - [readings k] is what the [k]-th call of [time.time()] returns (in
      clock ticks) and [clock] counts the calls made so far;
    - [calls] lists, oldest first, the mutating calls issued on the board;
    - [examined] lists, oldest first, the root moves whose search returned,
      each with the value [val] it was compared with. *)

Inductive BoardCall {api : BoardAPI} : Type :=
| MakeMove (mv : Move)
| UndoMove.

Record State {api : BoardAPI} : Type := mkState {
  board : Board;
  nodes_expanded : Z;
  depth : Z;
  time_budget : Z;
  start_time : Z;
  root_is_white : bool;
  readings : nat → Z;
  clock : nat;
  calls : list BoardCall;
  examined : list (Move * Score);
}.

(** Computations of the agent: they thread the state and may give no
    result ([None]) when the recursion allowance [fuel] of [_alphabeta]
    is used up. *)
Definition M {api : BoardAPI} (A : Type) : Type := State → option (A * State).

Definition ret {api : BoardAPI} {A : Type} (a : A) : M A := λ st, Some (a, st).

Definition bind {api : BoardAPI} {A B : Type} (c : M A) (k : A → M B) : M B :=
  λ st, match c st with
        | Some (a, st') => k a st'
        | None => None
        end.

Notation "'let*' x ':=' c 'in' k" := (bind c (λ x, k))
  (at level 10, x name, c at level 100, k at level 200).
Notation "c ';;' k" := (bind c (λ _, k))
  (at level 100, k at level 200, right associativity).

Section Engine.
Context {cfg : Config} {api : BoardAPI}.

(** State updates, one per field written. *)
Definition tick (st : State) : State :=
  mkState _ (board st) (nodes_expanded st) (depth st) (time_budget st)
          (start_time st) (root_is_white st) (readings st) (S (clock st))
          (calls st) (examined st).

Definition set_board (b : Board) (c : BoardCall) (st : State) : State :=
  mkState _ b (nodes_expanded st) (depth st) (time_budget st)
          (start_time st) (root_is_white st) (readings st) (clock st)
          (calls st ++ [c]) (examined st).

Definition set_nodes_expanded (n : Z) (st : State) : State :=
  mkState _ (board st) n (depth st) (time_budget st)
          (start_time st) (root_is_white st) (readings st) (clock st)
          (calls st) (examined st).

Definition set_root (now : Z) (white : bool) (st : State) : State :=
  mkState _ (board st) (nodes_expanded st) (depth st) (time_budget st)
          now white (readings st) (clock st) (calls st) (examined st).

Definition set_examined (l : list (Move * Score)) (st : State) : State :=
  mkState _ (board st) (nodes_expanded st) (depth st) (time_budget st)
          (start_time st) (root_is_white st) (readings st) (clock st)
          (calls st) l.

(** [time.time()] *)
Definition time_time : M Z :=
  λ st, Some (readings st (clock st), tick st).

(** [_out_of_time()] *)
Definition _out_of_time : M bool :=
  let* now := time_time in
  λ st, Some (time_budget st <=? now - start_time st, st).

(** [self.board.make_move(mv)] *)
Definition board_make_move (mv : Move) : M unit :=
  λ st, Some (tt, set_board (make_move mv (board st)) (MakeMove mv) st).

(** [self.board.undo_move()] *)
Definition board_undo_move : M unit :=
  λ st, Some (tt, set_board (undo_move (board st)) UndoMove st).

(** [self.nodes_expanded += 1] *)
Definition count_node : M unit :=
  λ st, Some (tt, set_nodes_expanded (nodes_expanded st + 1) st).

(** Reading the shared board. *)
Definition read_board {A : Type} (f : Board → A) : M A :=
  λ st, Some (f (board st), st).

(** Reading [self.depth]. *)
Definition read_depth : M Z :=
  λ st, Some (depth st, st).

(** [evaluate_board()] *)
Definition evaluate_board : M Z :=
  λ st, Some (evaluate (root_is_white st) (white_to_move (board st))
                       (is_in_check (board st)) (grid (board st)), st).

(** The [for mv in moves] loop of the maximizing branch of [_alphabeta];
    [child alpha beta] is the recursive call
    [_alphabeta(depth - 1, alpha, beta, maximizing=False)]. *)
Fixpoint max_loop (child : Score → Score → M Score) (moves : list Move)
    (value alpha beta : Score) : M Score :=
  match moves with
  | [] => ret value
  | mv :: moves =>
      let* out := _out_of_time in
      if out then ret value
      else
        board_make_move mv ;;
        count_node ;;
        let* r := child alpha beta in
        let value := Score.max value r in
        board_undo_move ;;
        let alpha := Score.max alpha value in
        if Score.geb alpha beta then ret value
        else max_loop child moves value alpha beta
  end.

(** The loop of the minimizing branch. *)
Fixpoint min_loop (child : Score → Score → M Score) (moves : list Move)
    (value alpha beta : Score) : M Score :=
  match moves with
  | [] => ret value
  | mv :: moves =>
      let* out := _out_of_time in
      if out then ret value
      else
        board_make_move mv ;;
        count_node ;;
        let* r := child alpha beta in
        let value := Score.min value r in
        board_undo_move ;;
        let beta := Score.min beta value in
        if Score.geb alpha beta then ret value
        else min_loop child moves value alpha beta
  end.

(** [_alphabeta(depth, alpha, beta, maximizing)].  [fuel] bounds the
    number of nested calls; [depth] is the Python integer, tested with
    [depth == 0] and passed on as [depth - 1]. *)
Fixpoint _alphabeta (fuel : nat) (depth : Z) (alpha beta : Score)
    (maximizing : bool) : M Score :=
  match fuel with
  | O => λ _, None
  | S fuel =>
      let* out := _out_of_time in
      if out then
        let* v := evaluate_board in ret (Fin v)
      else
        let* state := read_board get_game_state in
        if String.eqb state "checkmate" then
          let* wtm := read_board white_to_move in
          λ st, Some (Fin (if Bool.eqb wtm (root_is_white st)
                           then -1000000 else 1000000), st)
        else if String.eqb state "stalemate" || (depth =? 0) then
          let* v := evaluate_board in ret (Fin v)
        else
          let* moves := read_board get_legal_moves in
          match moves with
          | [] => let* v := evaluate_board in ret (Fin v)
          | _ :: _ =>
              if maximizing then
                max_loop (λ a b, _alphabeta fuel (depth - 1) a b false)
                         moves NegInf alpha beta
              else
                min_loop (λ a b, _alphabeta fuel (depth - 1) a b true)
                         moves PosInf alpha beta
          end
  end.

(** The first three statements of [get_best_move]. *)
Definition begin_search : M unit :=
  let* now := time_time in
  λ st, Some (tt, set_examined []
                    (set_root now (white_to_move (board st))
                       (set_nodes_expanded 0 st))).

(** Records that the search of root move [mv] returned [val]. *)
Definition note_examined (mv : Move) (val : Score) : M unit :=
  λ st, Some (tt, set_examined (examined st ++ [(mv, val)]) st).

(** The [for mv in legal_moves] loop of [get_best_move] ([beta] stays
    [math.inf]). *)
Fixpoint root_loop (fuel : nat) (moves : list Move) (best_move : Move)
    (best_val alpha : Score) : M Move :=
  match moves with
  | [] => ret best_move
  | mv :: moves =>
      let* out := _out_of_time in
      if out then ret best_move
      else
        board_make_move mv ;;
        count_node ;;
        let* d := read_depth in
        let* val := _alphabeta fuel (d - 1) alpha PosInf false in
        board_undo_move ;;
        note_examined mv val ;;
        let '(best_val, best_move) :=
          if Score.ltb best_val val then (val, mv) else (best_val, best_move) in
        let alpha := Score.max alpha val in
        root_loop fuel moves best_move best_val alpha
  end.

(** [get_best_move()]: [None] is Python's [None]. *)
Definition get_best_move (fuel : nat) : M (option Move) :=
  begin_search ;;
  let* legal_moves := read_board get_legal_moves in
  match legal_moves with
  | [] => ret None
  | first :: _ =>
      let* best := root_loop fuel legal_moves first NegInf NegInf in
      ret (Some best)
  end.

End Engine.

(** ** Vocabulary of the properties *)

(** A history of board calls in which every [make_move] is closed by
    exactly one later [undo_move], last made first undone. *)
Inductive paired {api : BoardAPI} : list BoardCall → Prop :=
| paired_nil : paired []
| paired_call (mv : Move) (inner rest : list BoardCall) :
    paired inner → paired rest →
    paired (MakeMove mv :: inner ++ UndoMove :: rest).

(** The numbers of [make_move] and of [undo_move] calls in a history. *)
Definition is_make {api : BoardAPI} (c : BoardCall) : bool :=
  match c with MakeMove _ => true | UndoMove => false end.

Definition count_makes {api : BoardAPI} (t : list BoardCall) : nat :=
  length (List.filter is_make t).

Definition count_undos {api : BoardAPI} (t : list BoardCall) : nat :=
  length (List.filter (λ c, negb (is_make c)) t).

(** A paired history in which at most [n] moves are applied at any one
    time. *)
Inductive nested {api : BoardAPI} : nat → list BoardCall → Prop :=
| nested_nil (n : nat) : nested n []
| nested_call (n : nat) (mv : Move) (inner rest : list BoardCall) :
    nested n inner → nested (S n) rest →
    nested (S n) (MakeMove mv :: inner ++ UndoMove :: rest).

Section Vocabulary.
Context {cfg : Config} {api : BoardAPI}.

(** What a call leaves behind when it gives the board back as it found
    it: the same board, and the calls it added are paired. *)
Record restored (st st' : State) : Prop := mkRestored {
  restored_board : board st' = board st;
  restored_calls : ∃ t, calls st' = calls st ++ t ∧ paired t;
}.

(** The root context and the configuration are untouched and the clock
    has only advanced. *)
Record context_kept (st st' : State) : Prop := mkKept {
  kept_depth : depth st' = depth st;
  kept_budget : time_budget st' = time_budget st;
  kept_start : start_time st' = start_time st;
  kept_root : root_is_white st' = root_is_white st;
  kept_readings : readings st' = readings st;
  kept_clock : (clock st ≤ clock st')%nat;
}.

(** The calls added between two states are paired and the counter grew
    by the number of moves made. *)
Definition counted (s s' : State) : Prop :=
  ∃ t, calls s' = calls s ++ t ∧ paired t ∧
       nodes_expanded s' = nodes_expanded s + Z.of_nat (count_makes t).

(** The answer [_out_of_time()] gives in state [st]. *)
Definition out_now (st : State) : bool :=
  time_budget st <=? readings st (clock st) - start_time st.

(** The state in which [get_best_move] reads the legal moves: the clock
    was read once for [start_time], the counter is reset and the root side
    is the side to move. *)
Definition started (st : State) : State :=
  set_examined []
    (set_root (readings st (clock st)) (white_to_move (board st))
       (set_nodes_expanded 0 (tick st))).

(** No later reading of the clock reaches the budget, counted from the
    next reading, which [get_best_move] takes as [start_time]. *)
Definition no_time_pressure (st : State) : Prop :=
  ∀ k, (clock st < k)%nat → readings st k - readings st (clock st) < time_budget st.

(** The static evaluation of board [b] for root side [rw]. *)
Definition static (rw : bool) (b : Board) : Z :=
  evaluate rw (white_to_move b) (is_in_check b) (grid b).

(** Unpruned minimax of depth [d] over the collaborator's game tree, with
    the leaves of [_alphabeta]: mate scores, and the static evaluation at
    stalemate, at depth zero and where there is no move. *)
Fixpoint minimax (rw : bool) (d : nat) (maximizing : bool) (b : Board) : Score :=
  if String.eqb (get_game_state b) "checkmate" then
    Fin (if Bool.eqb (white_to_move b) rw then -1000000 else 1000000)
  else if String.eqb (get_game_state b) "stalemate" then Fin (static rw b)
  else
    match d with
    | O => Fin (static rw b)
    | S d' =>
        match get_legal_moves b with
        | [] => Fin (static rw b)
        | moves =>
            if maximizing then
              foldr Score.max NegInf
                    ((λ mv, minimax rw d' false (make_move mv b)) <$> moves)
            else
              foldr Score.min PosInf
                    ((λ mv, minimax rw d' true (make_move mv b)) <$> moves)
        end
    end.

(** The number of moves in the game tree of depth [d] below [b], cut
    where [_alphabeta] stops: at checkmate, at stalemate and at depth
    zero. *)
Fixpoint tree_moves (d : nat) (b : Board) : nat :=
  if String.eqb (get_game_state b) "checkmate" then 0%nat
  else if String.eqb (get_game_state b) "stalemate" then 0%nat
  else
    match d with
    | O => 0%nat
    | S d' =>
        foldr (λ mv acc, (S (tree_moves d' (make_move mv b)) + acc)%nat) 0%nat
              (get_legal_moves b)
    end.

(** The number of moves in the tree [get_best_move] searches with depth
    [d]: every legal root move and the tree of depth [d - 1] below it. *)
Definition root_tree_moves (d : nat) (b : Board) : nat :=
  foldr (λ mv acc, (S (tree_moves (d - 1) (make_move mv b)) + acc)%nat) 0%nat
        (get_legal_moves b).

(** The greatest value of a list of scored moves. *)
Definition best_value (l : list (Move * Score)) : Score :=
  foldr Score.max NegInf (snd <$> l).

(** The earliest move of greatest value. *)
Definition best_of (l : list (Move * Score)) : option Move :=
  fst <$> List.find (λ p, Score.geb (snd p) (best_value l)) l.

(** The root moves of [b] with their minimax values: the root side is the
    side to move, each reply tree has depth [d - 1] and the opponent
    minimizes. *)
Definition root_values (d : nat) (b : Board) : list (Move * Score) :=
  (λ mv, (mv, minimax (white_to_move b) (d - 1) false (make_move mv b)))
    <$> get_legal_moves b.

(** The root move an unpruned minimax of depth [d] selects. *)
Definition minimax_best_move (d : nat) (b : Board) : option Move :=
  best_of (root_values d b).

(** What [best_move] and [best_val] are in the root loop. *)
Definition root_invariant (st : State) (moves : list Move)
    (best_move : Move) (best_val : Score) : Prop :=
  best_val = best_value (examined st) ∧
  match examined st with
  | [] => ∀ m, head moves = Some m → m = best_move
  | _ :: _ => best_of (examined st) = Some best_move
  end.

(** From state [st] on, no reading of the clock reaches the budget. *)
Definition calm (st : State) : Prop :=
  ∀ k, (clock st ≤ k)%nat → readings st k - start_time st < time_budget st.

(** Every reading of the clock taken between [st] and [st'] stayed under
    the budget. *)
Definition quiet (st st' : State) : Prop :=
  ∀ k, (clock st ≤ k < clock st')%nat →
       readings st k - start_time st < time_budget st.

(** How the value [r] a search with window [(alpha, beta)] returns
    relates to the minimax value [v]: exact inside the window, an upper
    bound at or below [alpha], a lower bound at or above [beta]. *)
Definition bracket (alpha beta r v : Score) : Prop :=
  (Score.le r alpha → Score.le v r) ∧
  (Score.le beta r → Score.le r v) ∧
  (Score.lt alpha r → Score.lt r beta → r = v).

(** The running value of a maximizing loop entered with [alpha0], against
    the true maximum [m] of the children seen so far. *)
Definition max_running (alpha0 value m : Score) : Prop :=
  (Score.le value alpha0 → Score.le m value) ∧
  (Score.lt alpha0 value → value = m).

(** The same for a minimizing loop entered with [beta0]. *)
Definition min_running (beta0 value m : Score) : Prop :=
  (Score.le beta0 value → Score.le value m) ∧
  (Score.lt value beta0 → value = m).

(** [get_best_move] returns only moves whose search it has run. *)
Definition returns_examined_move (fuel : nat) (st : State) : Prop :=
  ∀ r st', get_best_move fuel st = Some (r, st') →
    ∃ mv v, r = Some mv ∧ (mv, v) ∈ examined st'.

(** *** Colour mirror of a grid *)

(** The piece of the other colour; the empty square is its own mirror. *)
Definition swap_color (p : string) : string :=
  if String.eqb p WHITE_PAWN then BLACK_PAWN
  else if String.eqb p BLACK_PAWN then WHITE_PAWN
  else if String.eqb p WHITE_KNIGHT then BLACK_KNIGHT
  else if String.eqb p BLACK_KNIGHT then WHITE_KNIGHT
  else if String.eqb p WHITE_BISHOP then BLACK_BISHOP
  else if String.eqb p BLACK_BISHOP then WHITE_BISHOP
  else if String.eqb p WHITE_KING then BLACK_KING
  else if String.eqb p BLACK_KING then WHITE_KING
  else p.

(** The grid flipped top to bottom with colours exchanged. *)
Definition mirror (b : nat → nat → string) : nat → nat → string :=
  λ r c, swap_color (b (BOARD_HEIGHT - 1 - r)%nat c).

(** The identities a cell can hold. *)
Definition identities : list string :=
  [EMPTY_SQUARE; WHITE_PAWN; BLACK_PAWN; WHITE_KNIGHT; BLACK_KNIGHT;
   WHITE_BISHOP; BLACK_BISHOP; WHITE_KING; BLACK_KING].

(** Every cell of the board holds a known identity. *)
Definition well_formed (b : nat → nat → string) : Prop :=
  ∀ r c, (r < BOARD_HEIGHT)%nat → (c < BOARD_WIDTH)%nat → b r c ∈ identities.

(** [PIECE_VALUES.get(p, 0)] *)
Definition material (p : string) : Z := default 0 (PIECE_VALUES !! p).

(** [config] gives the two colours of a kind opposite material values
    and distinct names. *)
Record symmetric_config : Prop := mkSymmetric {
  names_distinct : NoDup identities;
  pawn_opposite : material BLACK_PAWN = - material WHITE_PAWN;
  knight_opposite : material BLACK_KNIGHT = - material WHITE_KNIGHT;
  bishop_opposite : material BLACK_BISHOP = - material WHITE_BISHOP;
  king_opposite : material BLACK_KING = - material WHITE_KING;
}.

(** What one occupied or empty cell adds to the running score. *)
Definition cell_value (b : nat → nat → string) (r c : nat) : Z :=
  cell_step b r 0 c.

(** The sum of [f] over a list of indices. *)
Fixpoint sum_over (f : nat → Z) (l : list nat) : Z :=
  match l with
  | [] => 0
  | i :: l => f i + sum_over f l
  end.

(** Every cell of the board adds at most [k] in absolute value, whatever
    it holds. *)
Definition cells_bounded (k : Z) : Prop :=
  ∀ (p : string) (r c : nat), (r < BOARD_HEIGHT)%nat → (c < BOARD_WIDTH)%nat →
    Z.abs (material p + _pst_value p r c) ≤ k.

End Vocabulary.

(** ** A collaborator to run the agent on: explicit game trees

    A position is a node carrying what the agent can read from the board
    and the positions its legal moves lead to; a move is the index of a
    child.  The board object is the current node and the stack of nodes
    [make_move] left behind, which [undo_move] pops. *)

Module GameTree.

#[local] Unset Elimination Schemes.
Inductive Tree : Type :=
| Node (cells : list (list string)) (wtm in_check : bool) (state : string)
       (children : list Tree).
#[local] Set Elimination Schemes.

Definition cells_of (t : Tree) : list (list string) :=
  match t with Node g _ _ _ _ => g end.
Definition wtm_of (t : Tree) : bool :=
  match t with Node _ w _ _ _ => w end.
Definition check_of (t : Tree) : bool :=
  match t with Node _ _ c _ _ => c end.
Definition state_of (t : Tree) : string :=
  match t with Node _ _ _ s _ => s end.
Definition children_of (t : Tree) : list Tree :=
  match t with Node _ _ _ _ ts => ts end.

Definition cell (g : list (list string)) (r c : nat) : string :=
  nth c (nth r g []) "--"%string.

Definition Position : Type := Tree * list Tree.

#[local] Instance api : BoardAPI := {|
  Board := Position;
  Move := nat;
  grid := λ b, cell (cells_of (fst b));
  white_to_move := λ b, wtm_of (fst b);
  get_legal_moves := λ b, seq 0 (length (children_of (fst b)));
  make_move := λ mv b, (nth mv (children_of (fst b)) (fst b), fst b :: snd b);
  undo_move := λ b, match snd b with
                    | [] => b
                    | t :: ts => (t, ts)
                    end;
  is_in_check := λ b, check_of (fst b);
  get_game_state := λ b, state_of (fst b);
|}.

(** A sample [config]: the 4x8 board, two-letter piece names, material
    values and small piece-square tables. *)
Definition pst (rows : list (list Z)) : Table :=
  λ r c, nth c (nth r rows []) 0.

#[local] Instance cfg : Config := {|
  BOARD_WIDTH := 4;
  BOARD_HEIGHT := 8;
  EMPTY_SQUARE := "--";
  WHITE_PAWN := "wP";
  BLACK_PAWN := "bP";
  WHITE_KNIGHT := "wN";
  BLACK_KNIGHT := "bN";
  WHITE_BISHOP := "wB";
  BLACK_BISHOP := "bB";
  WHITE_KING := "wK";
  BLACK_KING := "bK";
  PIECE_VALUES :=
    list_to_map [("wP", 20); ("wN", 70); ("wB", 70); ("wK", 600);
                 ("bP", -20); ("bN", -70); ("bB", -70); ("bK", -600)]%string;
  PAWN_PST := pst [[0;0;0;0]; [8;8;8;8]; [6;6;6;6]; [4;5;5;4];
                   [2;3;3;2]; [1;1;1;1]; [0;0;0;0]; [0;0;0;0]];
  KNIGHT_PST := pst [[0;1;1;0]; [1;2;2;1]; [1;3;3;1]; [1;3;3;1];
                     [1;3;3;1]; [1;3;3;1]; [1;2;2;1]; [0;1;1;0]];
  BISHOP_PST := pst [[0;0;0;0]; [0;2;2;0]; [1;2;2;1]; [1;3;3;1];
                     [1;3;3;1]; [1;2;2;1]; [0;2;2;0]; [0;0;0;0]];
  KING_PST_LATE_GAME := pst [[0;1;1;0]; [1;2;2;1]; [1;3;3;1]; [1;4;4;1];
                             [1;4;4;1]; [1;3;3;1]; [1;2;2;1]; [0;1;1;0]];
|}.

(** The agent as [__init__] leaves it ([depth] and [time_budget] as
    given), on board [b], with clock [readings]. *)
Definition init (b : Position) (d budget : Z) (readings : nat → Z) : State :=
  mkState _ b 0 d budget 0 true readings 0 [] [].

(** *** Sample positions

    Two grids (kings only, and kings with a black pawn) and a tree over
    them: white to move has three moves; the first two leave black one or
    two replies, the third mates. *)
Definition kings : list (list string) :=
  [["--"; "wK"; "--"; "--"]; []; []; []; []; []; [];
   ["--"; "bK"; "--"; "--"]]%string.

Definition kings_pawn : list (list string) :=
  [["--"; "wK"; "--"; "--"]; []; []; []; []; []; [];
   ["--"; "bK"; "bP"; "--"]]%string.

Definition leaf (wtm : bool) (g : list (list string)) : Tree :=
  Node g wtm false "normal" [].

Definition sample : Tree :=
  Node kings_pawn true false "normal"
    [ Node kings_pawn false false "normal" [leaf true kings_pawn; leaf true kings];
      Node kings false false "normal" [leaf true kings];
      Node kings_pawn false true "checkmate" [] ].

(** A position with no legal move. *)
Definition stuck : Tree := Node kings true false "stalemate" [].

(** A clock that advances one tick per reading. *)
Definition steady : nat → Z := Z.of_nat.

(** A clock that stands still. *)
Definition frozen : nat → Z := λ _, 0.

(** The agent on [sample] with depth 3 and a budget of [budget] ticks of
    the steady clock. *)
Definition hurried (budget : Z) : State := init (sample, []) 3 budget steady.

(** The agent on [sample] with depth 3 and all the time it wants. *)
Definition relaxed : State := init (sample, []) 3 1 frozen.

(** The agent on the position with no legal move. *)
Definition cornered : State := init (stuck, []) 3 100 steady.

(** The agent on a position with a single legal move. *)
Definition forced : State :=
  init (Node kings false false "normal" [leaf true kings], []) 3 100 steady.

(** The grid [kings_pawn] with other content outside the 8 by 4 board. *)
Definition padded : nat → nat → string :=
  λ r c, if (r <? 8)%nat && (c <? 4)%nat then cell kings_pawn r c else "??"%string.

(** The agent inside a search, at the mated reply of [sample]. *)
Definition mated : State :=
  init (Node kings_pawn false true "checkmate" [], [sample]) 3 100 steady.

End GameTree.

(** * Properties *)

(** ** Order on scores *)

Ltac score_cases :=
  repeat match goal with x : Score |- _ => destruct x end;
  unfold Score.lt, Score.le, Score.geb, Score.max, Score.min in *;
  cbn [Score.ltb negb] in *;
  repeat match goal with
         | H : context [?x <? ?y] |- _ =>
             destruct (Z.ltb_spec x y); cbn [Score.ltb negb] in *
         | |- context [?x <? ?y] =>
             destruct (Z.ltb_spec x y); cbn [Score.ltb negb] in *
         end;
  try done; try (f_equal; lia); try lia.

Lemma score_ltb_irrefl (a : Score) : Score.ltb a a = false.
Proof. score_cases. Qed.

Lemma score_max_neginf_l (a : Score) : Score.max NegInf a = a.
Proof. score_cases. Qed.

Lemma score_le_neginf (a : Score) : Score.le NegInf a.
Proof. score_cases. Qed.

Lemma score_le_posinf (a : Score) : Score.le a PosInf.
Proof. score_cases. Qed.

Lemma score_min_posinf_l (a : Score) : Score.min PosInf a = a.
Proof. score_cases. Qed.

Lemma score_min_posinf_r (a : Score) : Score.min a PosInf = a.
Proof. score_cases. Qed.

(** ** Paired call histories *)

Section Paired.
Context {api : BoardAPI}.

Lemma paired_app (t1 t2 : list BoardCall) :
  paired t1 → paired t2 → paired (t1 ++ t2).
Proof.
  intros H1 H2. induction H1 as [|mv inner rest Hin _ Hrest IH]; [done|].
  cbn. rewrite <- app_assoc. cbn. by constructor.
Qed.

Lemma paired_wrap (mv : Move) (t : list BoardCall) :
  paired t → paired (MakeMove mv :: t ++ [UndoMove]).
Proof. intros Ht. apply paired_call; [done | constructor]. Qed.

Lemma paired_balanced (t : list BoardCall) :
  paired t → count_makes t = count_undos t.
Proof.
  unfold count_makes, count_undos.
  induction 1 as [|mv inner rest _ IH1 _ IH2]; [done|].
  change (MakeMove mv :: inner ++ UndoMove :: rest)
    with ([MakeMove mv] ++ inner ++ [UndoMove] ++ rest).
  rewrite !List.filter_app, !length_app, IH1, IH2. cbn. lia.
Qed.

End Paired.

(** ** What every call of the search preserves

    The loops, [_alphabeta] and the root loop are followed once, for any
    relation [R] between the state before and after a call that is closed
    under the steps they take.  [P mv s] is what allows wrapping a call
    between [make_move(mv)] and [undo_move()] in state [s]. *)

Section CallRelation.
Context {cfg : Config} {api : BoardAPI}.
Variable R : State → State → Prop.
Variable P : Move → State → Prop.
Hypothesis R_refl : ∀ s, R s s.
Hypothesis R_trans : ∀ s1 s2 s3, R s1 s2 → R s2 s3 → R s1 s3.
Hypothesis R_tick : ∀ s, R s (tick s).
Hypothesis R_wrap : ∀ s mv s2,
  P mv s →
  R (set_nodes_expanded (nodes_expanded s + 1)
       (set_board (make_move mv (board s)) (MakeMove mv) s)) s2 →
  R s (set_board (undo_move (board s2)) UndoMove s2).
Hypothesis P_legal : ∀ s mv, mv ∈ get_legal_moves (board s) → P mv (tick s).
Hypothesis P_step : ∀ s s' mv, R s s' → P mv s → P mv s'.

Lemma out_of_time_run (st : State) :
  _out_of_time st = Some (out_now st, tick st).
Proof. reflexivity. Qed.

Ltac open_loop Hrun child :=
  unfold bind at 1 in Hrun; rewrite out_of_time_run in Hrun;
  destruct (out_now _);
  [ injection Hrun as _ <-
  | unfold bind, board_make_move, count_node, board_undo_move in Hrun;
    cbn [nodes_expanded board set_board tick] in Hrun;
    match type of Hrun with
    | match child ?a ?b ?s with _ => _ end = _ =>
        let Hchild := fresh "Hchild" in
        destruct (child a b s) as [[? ?]|] eqn:Hchild; [|done]
    end ].

Section Loops.
Variable child : Score → Score → M Score.
Hypothesis child_rel : ∀ a b s r s', child a b s = Some (r, s') → R s s'.

Lemma max_loop_rel (moves : list Move) :
  ∀ value alpha beta st r st',
    (∀ mv, mv ∈ moves → P mv st) →
    max_loop child moves value alpha beta st = Some (r, st') →
    R st st'.
Proof.
  induction moves as [|mv moves IH]; intros value alpha beta st r st' Hin Hrun.
  { injection Hrun as _ <-. apply R_refl. }
  cbn [max_loop] in Hrun. open_loop Hrun child; [apply R_tick|].
  apply child_rel in Hchild.
  apply (R_wrap (tick st) mv) in Hchild;
    [|eapply P_step; [apply R_tick|apply Hin; left]].
  pose proof (R_trans _ _ _ (R_tick st) Hchild) as Hback.
  destruct (Score.geb _ _).
  - by injection Hrun as _ <-.
  - apply IH in Hrun; [by eapply R_trans|].
    intros mv' Hmv'. eapply P_step; [exact Hback|]. apply Hin. by right.
Qed.

Lemma min_loop_rel (moves : list Move) :
  ∀ value alpha beta st r st',
    (∀ mv, mv ∈ moves → P mv st) →
    min_loop child moves value alpha beta st = Some (r, st') →
    R st st'.
Proof.
  induction moves as [|mv moves IH]; intros value alpha beta st r st' Hin Hrun.
  { injection Hrun as _ <-. apply R_refl. }
  cbn [min_loop] in Hrun. open_loop Hrun child; [apply R_tick|].
  apply child_rel in Hchild.
  apply (R_wrap (tick st) mv) in Hchild;
    [|eapply P_step; [apply R_tick|apply Hin; left]].
  pose proof (R_trans _ _ _ (R_tick st) Hchild) as Hback.
  destruct (Score.geb _ _).
  - by injection Hrun as _ <-.
  - apply IH in Hrun; [by eapply R_trans|].
    intros mv' Hmv'. eapply P_step; [exact Hback|]. apply Hin. by right.
Qed.

End Loops.

Lemma alphabeta_rel (fuel : nat) :
  ∀ d alpha beta maximizing st r st',
    _alphabeta fuel d alpha beta maximizing st = Some (r, st') →
    R st st'.
Proof.
  induction fuel as [|fuel IH]; intros d alpha beta maximizing st r st' Hrun;
    [done|].
  cbn [_alphabeta] in Hrun. unfold bind at 1 in Hrun.
  rewrite out_of_time_run in Hrun.
  destruct (out_now st).
  { injection Hrun as _ <-. apply R_tick. }
  unfold bind at 1, read_board at 1 in Hrun. cbn [board tick] in Hrun.
  destruct (String.eqb _ "checkmate").
  { injection Hrun as _ <-. apply R_tick. }
  destruct (_ || _).
  { injection Hrun as _ <-. apply R_tick. }
  unfold bind at 1, read_board at 1 in Hrun. cbn [board tick] in Hrun.
  destruct (get_legal_moves (board st)) as [|mv moves] eqn:Hmoves.
  { injection Hrun as _ <-. apply R_tick. }
  apply R_trans with (tick st); [apply R_tick|].
  assert (∀ mv', mv' ∈ mv :: moves → P mv' (tick st)) as Hin.
  { intros mv' Hmv'. apply P_legal. by rewrite Hmoves. }
  destruct maximizing.
  - eapply max_loop_rel; [|exact Hin|exact Hrun].
    intros a b s r' s'. apply IH.
  - eapply min_loop_rel; [|exact Hin|exact Hrun].
    intros a b s r' s'. apply IH.
Qed.

Hypothesis R_note : ∀ s l, R s (set_examined l s).

Lemma root_loop_rel (fuel : nat) (moves : list Move) :
  ∀ best_move best_val alpha st r st',
    (∀ mv, mv ∈ moves → P mv st) →
    root_loop fuel moves best_move best_val alpha st = Some (r, st') →
    R st st'.
Proof.
  induction moves as [|mv moves IH];
    intros best_move best_val alpha st r st' Hin Hrun.
  { injection Hrun as _ <-. apply R_refl. }
  cbn [root_loop] in Hrun. unfold bind at 1 in Hrun.
  rewrite out_of_time_run in Hrun.
  destruct (out_now st).
  { injection Hrun as _ <-. apply R_tick. }
  unfold bind, board_make_move, count_node, board_undo_move, read_depth,
    note_examined in Hrun.
  cbn [nodes_expanded board depth set_board set_nodes_expanded tick] in Hrun.
  match type of Hrun with
  | match _alphabeta ?f ?d ?a ?b ?m ?s with _ => _ end = _ =>
      destruct (_alphabeta f d a b m s) as [[val s2]|] eqn:Hchild; [|done]
  end.
  apply alphabeta_rel in Hchild.
  apply (R_wrap (tick st) mv) in Hchild;
    [|eapply P_step; [apply R_tick|apply Hin; left]].
  pose proof (R_trans _ _ _ (R_trans _ _ _ (R_tick st) Hchild)
                (R_note _ (examined s2 ++ [(mv, val)]))) as Hback.
  cbn [examined set_board] in Hrun.
  destruct (Score.ltb best_val val);
    (apply IH in Hrun; [by eapply R_trans|]);
    intros mv' Hmv'; (eapply P_step; [exact Hback|]); apply Hin; by right.
Qed.

End CallRelation.

(** ** The search gives the board back *)

Section Restoring.
Context {cfg : Config} {api : BoardAPI}.

Lemma restored_refl (st : State) : restored st st.
Proof.
  split; try done. exists []. split; [by rewrite app_nil_r | constructor].
Qed.

Lemma restored_trans (s1 s2 s3 : State) :
  restored s1 s2 → restored s2 s3 → restored s1 s3.
Proof.
  intros [Hb (t1 & Ht1 & Hp1)] [Hb' (t2 & Ht2 & Hp2)].
  split; [congruence|].
  exists (t1 ++ t2). split; [|by apply paired_app].
  by rewrite Ht2, Ht1, app_assoc.
Qed.

Lemma restored_tick (st : State) : restored st (tick st).
Proof. destruct (restored_refl st) as [Hb Hc]. by split. Qed.

(** [make_move], the counter, a call that restores the board, then
    [undo_move]: the board is back. *)
Lemma restored_round_trip `{!BoardLaws api} (st : State) (mv : Move) (s2 : State) :
  mv ∈ get_legal_moves (board st) →
  restored (set_nodes_expanded (nodes_expanded st + 1)
              (set_board (make_move mv (board st)) (MakeMove mv) st)) s2 →
  restored st (set_board (undo_move (board s2)) UndoMove s2).
Proof.
  intros Hmv [Hb (t & Ht & Hp)]. cbn in *.
  split; cbn.
  - rewrite Hb. by apply undo_make.
  - exists (MakeMove mv :: t ++ [UndoMove]). split; [|by apply paired_wrap].
    rewrite Ht. rewrite <- !app_assoc. done.
Qed.

Lemma alphabeta_restored `{!BoardLaws api} fuel d alpha beta maximizing st r st' :
  _alphabeta fuel d alpha beta maximizing st = Some (r, st') →
  restored st st'.
Proof.
  apply (alphabeta_rel restored (λ mv s, mv ∈ get_legal_moves (board s))).
  - apply restored_refl.
  - apply restored_trans.
  - apply restored_tick.
  - apply restored_round_trip.
  - done.
  - intros s s' mv [Hb _] Hmv. by rewrite Hb.
Qed.

Lemma root_loop_restored `{!BoardLaws api} fuel moves best_move best_val alpha st r st' :
  (∀ mv, mv ∈ moves → mv ∈ get_legal_moves (board st)) →
  root_loop fuel moves best_move best_val alpha st = Some (r, st') →
  restored st st'.
Proof.
  apply (root_loop_rel restored (λ mv s, mv ∈ get_legal_moves (board s))).
  - apply restored_refl.
  - apply restored_trans.
  - apply restored_tick.
  - apply restored_round_trip.
  - done.
  - intros s s' mv [Hb _] Hmv. by rewrite Hb.
  - intros s l. destruct (restored_refl s). by split.
Qed.

End Restoring.

(** ** The search keeps its root context *)

Section Keeping.
Context {cfg : Config} {api : BoardAPI}.

Lemma kept_refl (st : State) : context_kept st st.
Proof. by split. Qed.

Lemma kept_trans (s1 s2 s3 : State) :
  context_kept s1 s2 → context_kept s2 s3 → context_kept s1 s3.
Proof. intros [] []. split; try congruence. lia. Qed.

Lemma kept_tick (st : State) : context_kept st (tick st).
Proof. split; try done. cbn. lia. Qed.

Lemma alphabeta_kept fuel d alpha beta maximizing st r st' :
  _alphabeta fuel d alpha beta maximizing st = Some (r, st') →
  context_kept st st'.
Proof.
  apply (alphabeta_rel context_kept (λ _ _, True)).
  - apply kept_refl.
  - apply kept_trans.
  - apply kept_tick.
  - intros s mv s2 _ []. by split.
  - done.
  - done.
Qed.

Lemma root_loop_kept fuel moves best_move best_val alpha st r st' :
  root_loop fuel moves best_move best_val alpha st = Some (r, st') →
  context_kept st st'.
Proof.
  apply (root_loop_rel context_kept (λ _ _, True)).
  - apply kept_refl.
  - apply kept_trans.
  - apply kept_tick.
  - intros s mv s2 _ []. by split.
  - done.
  - done.
  - intros s l. by split.
  - done.
Qed.

Lemma alphabeta_examined fuel d alpha beta maximizing st r st' :
  _alphabeta fuel d alpha beta maximizing st = Some (r, st') →
  examined st' = examined st.
Proof.
  apply (alphabeta_rel (λ s s', examined s' = examined s) (λ _ _, True));
    try done.
  intros s1 s2 s3 H12 H23. by rewrite H23.
Qed.

End Keeping.

(** ** The search returns *)

Section Totality.
Context {cfg : Config} {api : BoardAPI}.

Lemma max_loop_total (child : Score → Score → M Score) (moves : list Move) :
  (∀ a b s, is_Some (child a b s)) →
  ∀ value alpha beta st, is_Some (max_loop child moves value alpha beta st).
Proof.
  intros Hchild. induction moves as [|mv moves IH]; intros value alpha beta st.
  { by eexists. }
  cbn [max_loop]. unfold bind at 1. rewrite out_of_time_run.
  destruct (out_now st); [by eexists|].
  unfold bind, board_make_move, count_node, board_undo_move.
  match goal with
  | |- context [child ?a ?b ?s] => destruct (Hchild a b s) as [[r s2] ->]
  end.
  destruct (Score.geb _ _); [by eexists | apply IH].
Qed.

Lemma min_loop_total (child : Score → Score → M Score) (moves : list Move) :
  (∀ a b s, is_Some (child a b s)) →
  ∀ value alpha beta st, is_Some (min_loop child moves value alpha beta st).
Proof.
  intros Hchild. induction moves as [|mv moves IH]; intros value alpha beta st.
  { by eexists. }
  cbn [min_loop]. unfold bind at 1. rewrite out_of_time_run.
  destruct (out_now st); [by eexists|].
  unfold bind, board_make_move, count_node, board_undo_move.
  match goal with
  | |- context [child ?a ?b ?s] => destruct (Hchild a b s) as [[r s2] ->]
  end.
  destruct (Score.geb _ _); [by eexists | apply IH].
Qed.

(** With [depth >= 0], [depth + 1] nested calls are enough. *)
Lemma alphabeta_total (fuel : nat) :
  ∀ d alpha beta maximizing st,
    0 ≤ d → (Z.to_nat d < fuel)%nat →
    is_Some (_alphabeta fuel d alpha beta maximizing st).
Proof.
  induction fuel as [|fuel IH]; intros d alpha beta maximizing st Hd Hfuel;
    [lia|].
  cbn [_alphabeta]. unfold bind at 1. rewrite out_of_time_run.
  destruct (out_now st); [by eexists|].
  unfold bind at 1, read_board at 1.
  destruct (String.eqb _ "checkmate"); [by eexists|].
  destruct (String.eqb _ "stalemate"); [by eexists|]. cbn [orb].
  destruct (Z.eqb_spec d 0) as [|Hne]; [by eexists|].
  unfold bind at 1, read_board at 1.
  destruct (get_legal_moves _); [by eexists|].
  destruct maximizing.
  - apply max_loop_total. intros a b s. apply IH; lia.
  - apply min_loop_total. intros a b s. apply IH; lia.
Qed.

Lemma root_loop_total (fuel : nat) (moves : list Move) :
  ∀ best_move best_val alpha st,
    1 ≤ depth st → (Z.to_nat (depth st) ≤ fuel)%nat →
    is_Some (root_loop fuel moves best_move best_val alpha st).
Proof.
  induction moves as [|mv moves IH]; intros best_move best_val alpha st Hd Hfuel.
  { by eexists. }
  cbn [root_loop]. unfold bind at 1. rewrite out_of_time_run.
  destruct (out_now st); [by eexists|].
  unfold bind, board_make_move, count_node, board_undo_move, read_depth,
    note_examined.
  cbn [depth set_nodes_expanded set_board tick].
  match goal with
  | |- context [_alphabeta ?f ?d ?a ?b ?m ?s] =>
      destruct (alphabeta_total f d a b m s) as [[val s2] Hrun]; [lia..|];
      rewrite Hrun; apply alphabeta_kept in Hrun
  end.
  destruct Hrun as [Hdepth _ _ _ _ _]. cbn in Hdepth.
  destruct (Score.ltb best_val val); apply IH; cbn; lia.
Qed.

(** [get_best_move], unfolded up to its loop. *)
Lemma get_best_move_run (fuel : nat) (st : State) :
  get_best_move fuel st =
  match get_legal_moves (board st) with
  | [] => Some (None, started st)
  | first :: rest =>
      match root_loop fuel (first :: rest) first NegInf NegInf (started st) with
      | Some (best, st') => Some (Some best, st')
      | None => None
      end
  end.
Proof.
  unfold get_best_move, begin_search, time_time, read_board, bind, ret.
  cbv beta iota.
  change (board (set_examined _ _)) with (board st).
  by destruct (get_legal_moves (board st)).
Qed.

Lemma get_best_move_total (fuel : nat) (st : State) :
  1 ≤ depth st → (Z.to_nat (depth st) ≤ fuel)%nat →
  is_Some (get_best_move fuel st).
Proof.
  intros Hd Hfuel. rewrite get_best_move_run.
  destruct (get_legal_moves (board st)) as [|first rest]; [by eexists|].
  match goal with
  | |- context [root_loop ?f ?ms ?bm ?bv ?a ?s] =>
      destruct (root_loop_total f ms bm bv a s) as [[best s2] ->];
        [cbn; lia..|]
  end.
  by eexists.
Qed.

(** The root loop returns its initial choice or one of the moves it went
    through. *)
Lemma root_loop_member (fuel : nat) (moves : list Move) :
  ∀ best_move best_val alpha st r st',
    root_loop fuel moves best_move best_val alpha st = Some (r, st') →
    r = best_move ∨ r ∈ moves.
Proof.
  induction moves as [|mv moves IH];
    intros best_move best_val alpha st r st' Hrun.
  { injection Hrun as <- _. by left. }
  cbn [root_loop] in Hrun. unfold bind at 1 in Hrun.
  rewrite out_of_time_run in Hrun.
  destruct (out_now st).
  { injection Hrun as <- _. by left. }
  unfold bind, board_make_move, count_node, board_undo_move, read_depth,
    note_examined in Hrun.
  destruct (_alphabeta _ _ _ _ _ _) as [[val s2]|]; [|done].
  destruct (Score.ltb best_val val); apply IH in Hrun as [->|Hin];
    auto using list_elem_of_here, list_elem_of_further.
Qed.

End Totality.

(** ** Properties of [get_best_move] *)

Section BestMove.
Context {cfg : Config} {api : BoardAPI}.

(** C1.  Whatever the clock does and wherever pruning cuts, a run of
    [get_best_move] leaves the board as it found it, and the board calls
    it issued are paired: every [make_move] is closed by exactly one
    [undo_move], last made first undone.  The same holds of every call of
    [_alphabeta].  The run returns once [fuel] covers the configured
    depth. *)
Theorem get_best_move_restores_board `{!BoardLaws api} (fuel : nat) (st : State) :
  (1 ≤ depth st → (Z.to_nat (depth st) ≤ fuel)%nat →
   is_Some (get_best_move fuel st)) ∧
  (∀ r st', get_best_move fuel st = Some (r, st') →
     board st' = board st ∧
     ∃ t, calls st' = calls st ++ t ∧ paired t ∧
          count_makes t = count_undos t) ∧
  (∀ d alpha beta maximizing s v s',
     _alphabeta fuel d alpha beta maximizing s = Some (v, s') →
     board s' = board s ∧ ∃ t, calls s' = calls s ++ t ∧ paired t).
Proof.
  split; [apply get_best_move_total|].
  split; [|by intros d alpha beta maximizing s v s' [? ?]%alphabeta_restored].
  intros r st'. rewrite get_best_move_run.
  destruct (get_legal_moves (board st)) as [|first rest] eqn:Hmoves.
  - intros [= _ <-]. split; [done|]. exists [].
    split; [by rewrite app_nil_r|]. split; [constructor|done].
  - destruct (root_loop _ _ _ _ _ _) as [[best s2]|] eqn:Hloop; [|done].
    intros [= _ <-]. apply root_loop_restored in Hloop.
    + destruct Hloop as [Hb (t & Ht & Hp)]. split; [done|].
      exists t. auto using paired_balanced.
    + intros mv Hmv. cbn. by rewrite Hmoves.
Qed.

(** C3.  On a position with a legal move, [get_best_move] returns one of
    the moves [get_legal_moves()] listed when it was called; this holds
    for every clock, a generous budget included. *)
Theorem get_best_move_returns_legal_move (fuel : nat) (st : State) :
  get_legal_moves (board st) ≠ [] →
  (1 ≤ depth st → (Z.to_nat (depth st) ≤ fuel)%nat →
   is_Some (get_best_move fuel st)) ∧
  (∀ r st', get_best_move fuel st = Some (r, st') →
     ∃ mv, r = Some mv ∧ mv ∈ get_legal_moves (board st)).
Proof.
  intros Hne. split; [apply get_best_move_total|].
  intros r st'. rewrite get_best_move_run.
  destruct (get_legal_moves (board st)) as [|first rest]; [done|].
  destruct (root_loop _ _ _ _ _ _) as [[best s2]|] eqn:Hloop; [|done].
  intros [= <- _]. exists best. split; [done|].
  apply root_loop_member in Hloop as [->|Hin]; [left|done].
Qed.

(** C4.  On a position with no legal move, [get_best_move] returns
    [None]; it issues no call on the board, which stays as it was, and
    expands no node. *)
Theorem get_best_move_no_legal_move (fuel : nat) (st : State) :
  get_legal_moves (board st) = [] →
  ∃ st', get_best_move fuel st = Some (None, st') ∧
         board st' = board st ∧ calls st' = calls st ∧
         nodes_expanded st' = 0.
Proof.
  intros Hmoves. exists (started st). rewrite get_best_move_run, Hmoves. done.
Qed.

(** C10.  On a position with a legal move, if the first reading of the
    clock in the root loop already reaches the budget, [get_best_move]
    returns the first move of [get_legal_moves()] with no call on the
    board and no node expanded; and whatever the clock,
    [get_best_move] does not return [None] there. *)
Theorem get_best_move_expired_at_entry (fuel : nat) (st : State)
    (first : Move) (rest : list Move) :
  get_legal_moves (board st) = first :: rest →
  (time_budget st ≤ readings st (S (clock st)) - readings st (clock st) →
   ∃ st', get_best_move fuel st = Some (Some first, st') ∧
          board st' = board st ∧ calls st' = calls st ∧
          nodes_expanded st' = 0 ∧ examined st' = []) ∧
  (∀ r st', get_best_move fuel st = Some (r, st') → r ≠ None).
Proof.
  intros Hmoves. split.
  - intros Hout. exists (tick (started st)).
    rewrite get_best_move_run, Hmoves. cbn [root_loop].
    unfold bind at 1. rewrite out_of_time_run.
    replace (out_now (started st)) with true; [done|].
    symmetry. unfold out_now. cbn. by apply Z.leb_le.
  - intros r st'. rewrite get_best_move_run, Hmoves.
    destruct (root_loop _ _ _ _ _ _) as [[best s2]|]; [|done].
    by intros [= <- _].
Qed.

End BestMove.

(** ** The evaluator *)

Section EvaluatorFacts.
Context {cfg : Config}.

Lemma sum_over_app (f : nat → Z) (l1 l2 : list nat) :
  sum_over f (l1 ++ l2) = sum_over f l1 + sum_over f l2.
Proof. induction l1 as [|i l1 IH]; cbn; [done|]. rewrite IH. lia. Qed.

Lemma sum_over_ext (f g : nat → Z) (l : list nat) :
  (∀ i, i ∈ l → f i = g i) → sum_over f l = sum_over g l.
Proof.
  induction l as [|i l IH]; intros Hfg; cbn; [done|].
  rewrite Hfg by left. rewrite IH; [done|]. intros j Hj. apply Hfg. by right.
Qed.

Lemma sum_over_opp (f : nat → Z) (l : list nat) :
  sum_over (λ i, - f i) l = - sum_over f l.
Proof. induction l as [|i l IH]; cbn; [done|]. rewrite IH. lia. Qed.

Lemma sum_over_bound (f : nat → Z) (l : list nat) (k : Z) :
  (∀ i, i ∈ l → Z.abs (f i) ≤ k) →
  Z.abs (sum_over f l) ≤ Z.of_nat (length l) * k.
Proof.
  induction l as [|i l IH]; intros Hk; cbn [sum_over length]; [lia|].
  assert (Z.abs (f i) ≤ k) by (apply Hk; left).
  assert (Z.abs (sum_over f l) ≤ Z.of_nat (length l) * k)
    by (apply IH; intros j Hj; apply Hk; by right).
  lia.
Qed.

Lemma sum_over_fmap (f : nat → Z) (g : nat → nat) (l : list nat) :
  sum_over f (g <$> l) = sum_over (λ i, f (g i)) l.
Proof. induction l as [|i l IH]; cbn; [done|]. by rewrite IH. Qed.

Lemma sum_over_rev (f : nat → Z) (l : list nat) :
  sum_over f (rev l) = sum_over f l.
Proof.
  induction l as [|i l IH]; [done|].
  cbn [rev]. rewrite sum_over_app, IH. cbn. lia.
Qed.

Lemma seq_flip (n : nat) :
  (λ i, n - 1 - i)%nat <$> seq 0 n = rev (seq 0 n).
Proof.
  induction n as [|n IH]; [done|].
  rewrite seq_S at 2. rewrite rev_unit, <- IH. cbn [seq fmap list_fmap].
  f_equal; [f_equal; lia|].
  rewrite <- seq_shift. change (map S (seq 0 n)) with (S <$> seq 0 n).
  rewrite <- list_fmap_compose. apply list_fmap_ext.
  intros _ i _. cbn. lia.
Qed.

(** Summing from the last index down gives the same sum. *)
Lemma sum_over_flip (f : nat → Z) (n : nat) :
  sum_over (λ i, f (n - 1 - i)%nat) (seq 0 n) = sum_over f (seq 0 n).
Proof. by rewrite <- sum_over_fmap, seq_flip, sum_over_rev. Qed.

(** The loops of [evaluate_board] add up the values of the cells. *)
Lemma cell_step_value (b : nat → nat → string) (r : nat) (score : Z) (c : nat) :
  cell_step b r score c = score + cell_value b r c.
Proof.
  unfold cell_value, cell_step. destruct (String.eqb _ _); lia.
Qed.

Lemma row_sum (b : nat → nat → string) (r : nat) (cols : list nat) (score : Z) :
  foldl (cell_step b r) score cols = score + sum_over (cell_value b r) cols.
Proof.
  revert score. induction cols as [|c cols IH]; intros score; cbn; [lia|].
  rewrite IH, cell_step_value. lia.
Qed.

Lemma material_pst_sum (b : nat → nat → string) :
  material_pst b =
  sum_over (λ r, sum_over (cell_value b r) (seq 0 BOARD_WIDTH)) (seq 0 BOARD_HEIGHT).
Proof.
  unfold material_pst. generalize (seq 0 BOARD_HEIGHT) as rows.
  assert (∀ rows score,
    foldl (λ score r, foldl (cell_step b r) score (seq 0 BOARD_WIDTH)) score rows
    = score + sum_over (λ r, sum_over (cell_value b r) (seq 0 BOARD_WIDTH)) rows)
    as Hgen.
  { induction rows as [|r rows IH]; intros score; cbn; [lia|].
    rewrite IH, row_sum. lia. }
  intros rows. rewrite Hgen. lia.
Qed.

End EvaluatorFacts.

Section EvaluatorBounds.
Context {cfg : Config}.

Lemma cell_value_bound (b : nat → nat → string) (k : Z) (r c : nat) :
  cells_bounded k → (r < BOARD_HEIGHT)%nat → (c < BOARD_WIDTH)%nat →
  Z.abs (cell_value b r c) ≤ k.
Proof.
  intros Hk Hr Hc. specialize (Hk (b r c) r c Hr Hc).
  unfold cell_value, cell_step, material in *.
  destruct (String.eqb _ _); lia.
Qed.

Lemma material_pst_bound (b : nat → nat → string) (k : Z) :
  cells_bounded k →
  Z.abs (material_pst b) ≤ Z.of_nat BOARD_HEIGHT * Z.of_nat BOARD_WIDTH * k.
Proof.
  intros Hk. rewrite material_pst_sum, <- Z.mul_assoc.
  pose proof (sum_over_bound
    (λ r, sum_over (cell_value b r) (seq 0 BOARD_WIDTH))
    (seq 0 BOARD_HEIGHT) (Z.of_nat BOARD_WIDTH * k)) as Hrows.
  rewrite length_seq in Hrows. apply Hrows. intros r Hr%elem_of_seq.
  pose proof (sum_over_bound (cell_value b r) (seq 0 BOARD_WIDTH) k) as Hrow.
  rewrite length_seq in Hrow. apply Hrow. intros c Hc%elem_of_seq.
  apply cell_value_bound; [done|lia..].
Qed.

Lemma evaluate_bound (k : Z) (rw wtm chk : bool) (b : nat → nat → string) :
  cells_bounded k →
  Z.abs (evaluate rw wtm chk b)
  ≤ Z.of_nat BOARD_HEIGHT * Z.of_nat BOARD_WIDTH * k + 302.
Proof.
  intros Hk%(material_pst_bound b).
  unfold evaluate, raw_score, check_adjust.
  destruct rw, chk, wtm, (_has_king b true), (_has_king b false);
    cbn [negb Bool.eqb]; lia.
Qed.

End EvaluatorBounds.

Section EvaluatorClaims.
Context {cfg : Config} {api : BoardAPI}.

(** C5.  At a node the collaborator classifies as checkmate, reached
    before the deadline, [_alphabeta] returns exactly -1,000,000 when the
    side to move is the root side and +1,000,000 otherwise; it only read
    the clock once: no move is made and no call recurses.  When no cell
    can add more than [k] to the evaluation and the board's cells times
    [k], plus the check term 2 and the king terms 300, stay under one
    million, every score of [evaluate_board] is smaller in magnitude than
    the mate score. *)
Theorem checkmate_score_dominates (fuel : nat) (d : Z) (alpha beta : Score)
    (maximizing : bool) (st : State) (k : Z) :
  get_game_state (board st) = "checkmate"%string →
  out_now st = false →
  cells_bounded k →
  Z.of_nat BOARD_HEIGHT * Z.of_nat BOARD_WIDTH * k + 302 < 1000000 →
  _alphabeta (S fuel) d alpha beta maximizing st
  = Some (Fin (if Bool.eqb (white_to_move (board st)) (root_is_white st)
               then -1000000 else 1000000), tick st)
  ∧ ∀ s : State, ∃ v, evaluate_board s = Some (v, s) ∧ Z.abs v < 1000000.
Proof.
  intros Hmate Hout Hk Hsmall. split.
  - cbn [_alphabeta]. unfold bind at 1. rewrite out_of_time_run, Hout.
    unfold bind at 1, read_board at 1. cbn [board tick]. by rewrite Hmate.
  - intros s. eexists. split; [reflexivity|].
    eapply Z.le_lt_trans; [by apply evaluate_bound|done].
Qed.

(** C6 (the code's behaviour).  With the side to move in check, the
    score [evaluate_board] returns is the score without the check term
    minus 2 when white is to move and plus 2 when black is to move,
    whichever side is the root: for a black root the root is rewarded for
    being in check and penalised for giving check. *)
Theorem check_adjustment_returned (rw wtm : bool) (b : nat → nat → string) :
  evaluate rw wtm true b = evaluate rw wtm false b + (if wtm then -2 else 2).
Proof.
  unfold evaluate, raw_score, check_adjust.
  destruct rw, wtm, (_has_king b true), (_has_king b false); cbn; lia.
Qed.

End EvaluatorClaims.

(** ** Colour mirror *)

Section Mirror.
Context {cfg : Config}.
Hypothesis sym : symmetric_config.

Ltac elem_here :=
  first [ apply list_elem_of_here | apply list_elem_of_further; elem_here ].

(** Two names of [identities] at different places cannot be equal. *)
Ltac names_clash Heq :=
  let Hnd := fresh "Hnd" in
  pose proof (names_distinct sym) as Hnd;
  unfold identities in Hnd; rewrite Heq in Hnd;
  repeat (let Hni := fresh "Hni" in apply NoDup_cons in Hnd as [Hni Hnd];
          try (exfalso; apply Hni; elem_here)).

Ltac decide_names :=
  repeat match goal with
         | |- context [String.eqb ?a ?a] => rewrite (String.eqb_refl a)
         | |- context [String.eqb ?a ?b] =>
             let Heq := fresh "Heq" in
             destruct (String.eqb_spec a b) as [Heq|_]; [by names_clash Heq|]
         end.

Ltac each_identity Hp :=
  unfold identities in Hp;
  repeat (apply elem_of_cons in Hp as [->|Hp]);
  [..| by apply elem_of_nil in Hp].

Lemma swap_color_white_king (p : string) :
  p ∈ identities →
  String.eqb (swap_color p) WHITE_KING = String.eqb p BLACK_KING.
Proof.
  intros Hp. each_identity Hp; unfold swap_color; decide_names; done.
Qed.

Lemma swap_color_black_king (p : string) :
  p ∈ identities →
  String.eqb (swap_color p) BLACK_KING = String.eqb p WHITE_KING.
Proof.
  intros Hp. each_identity Hp; unfold swap_color; decide_names; done.
Qed.

Lemma cell_value_mirror (b : nat → nat → string) (r c : nat) :
  (r < BOARD_HEIGHT)%nat →
  b (BOARD_HEIGHT - 1 - r)%nat c ∈ identities →
  cell_value (mirror b) r c = - cell_value b (BOARD_HEIGHT - 1 - r)%nat c.
Proof.
  intros Hr Hp. unfold cell_value, cell_step, mirror.
  pose proof (pawn_opposite sym). pose proof (knight_opposite sym).
  pose proof (bishop_opposite sym). pose proof (king_opposite sym).
  unfold material in *.
  generalize dependent (b (BOARD_HEIGHT - 1 - r)%nat c). intros p Hp.
  each_identity Hp; unfold swap_color, _pst_value; decide_names;
    replace (BOARD_HEIGHT - 1 - (BOARD_HEIGHT - 1 - r))%nat with r by lia;
    lia.
Qed.

Lemma material_pst_mirror (b : nat → nat → string) :
  well_formed b → material_pst (mirror b) = - material_pst b.
Proof.
  intros Hwf. rewrite !material_pst_sum.
  rewrite <- (sum_over_flip (λ r, sum_over (cell_value b r) (seq 0 BOARD_WIDTH))).
  rewrite <- sum_over_opp. apply sum_over_ext. intros r Hr%elem_of_seq.
  rewrite <- sum_over_opp. apply sum_over_ext. intros c Hc%elem_of_seq.
  apply cell_value_mirror; [lia|]. apply Hwf; lia.
Qed.

Lemma has_king_mirror (b : nat → nat → string) (white : bool) :
  well_formed b → _has_king (mirror b) white = _has_king b (negb white).
Proof.
  intros Hwf. unfold _has_king, mirror. apply eq_iff_eq_true.
  rewrite !existsb_exists. split.
  - intros (r & Hr%in_seq & (c & Hc & Heq)%existsb_exists).
    exists (BOARD_HEIGHT - 1 - r)%nat. split; [apply in_seq; lia|].
    apply existsb_exists. exists c. split; [done|].
    pose proof Hc as Hc'%in_seq.
    destruct white; cbn [negb];
      [rewrite swap_color_white_king in Heq | rewrite swap_color_black_king in Heq];
      try done; apply Hwf; lia.
  - intros (r & Hr%in_seq & (c & Hc & Heq)%existsb_exists).
    exists (BOARD_HEIGHT - 1 - r)%nat. split; [apply in_seq; lia|].
    apply existsb_exists. exists c. split; [done|].
    pose proof Hc as Hc'%in_seq.
    replace (BOARD_HEIGHT - 1 - (BOARD_HEIGHT - 1 - r))%nat with r by lia.
    destruct white; cbn [negb] in Heq;
      [rewrite swap_color_white_king | rewrite swap_color_black_king];
      try done; apply Hwf; lia.
Qed.

(** C9.  For a position and its colour mirror (every piece replaced by
    the piece of the other colour, the board flipped top to bottom, the
    other side to move and in check exactly when the original side is),
    the score [evaluate_board] holds before the root-perspective
    normalisation is the opposite of the original one, for either root
    side. *)
Theorem raw_score_mirror (rw wtm chk : bool) (b : nat → nat → string) :
  well_formed b →
  raw_score rw (negb wtm) chk (mirror b) = - raw_score rw wtm chk b.
Proof.
  intros Hwf. unfold raw_score, check_adjust.
  rewrite material_pst_mirror by done.
  rewrite !has_king_mirror by done. cbn [negb].
  destruct chk, rw, wtm, (_has_king b true), (_has_king b false);
    cbn [negb Bool.eqb]; lia.
Qed.

End Mirror.

(** ** The move the root loop keeps *)

Section BestExamined.
Context {cfg : Config} {api : BoardAPI}.

Lemma score_max_assoc (a b c : Score) :
  Score.max a (Score.max b c) = Score.max (Score.max a b) c.
Proof. score_cases. Qed.

Lemma score_max_neginf_r (a : Score) : Score.max a NegInf = a.
Proof. score_cases. Qed.

Lemma best_value_snoc (ex : list (Move * Score)) (mv : Move) (val : Score) :
  best_value (ex ++ [(mv, val)]) = Score.max (best_value ex) val.
Proof.
  unfold best_value. induction ex as [|[m v] ex IH]; cbn.
  - by rewrite score_max_neginf_r, score_max_neginf_l.
  - cbn in IH. by rewrite IH, score_max_assoc.
Qed.

Lemma best_value_ge (ex : list (Move * Score)) (p : Move * Score) :
  p ∈ ex → Score.ltb (best_value ex) (snd p) = false.
Proof.
  unfold best_value. induction ex as [|[m v] ex IH]; intros Hp.
  { by apply elem_of_nil in Hp. }
  apply elem_of_cons in Hp as [->|Hp]; cbn.
  - generalize (foldr Score.max NegInf (snd <$> ex)). intros w. score_cases.
  - apply IH in Hp. revert Hp. cbn.
    generalize (foldr Score.max NegInf (snd <$> ex)), (snd p).
    intros w x Hp. score_cases.
Qed.

Lemma find_snoc {A : Type} (f : A → bool) (l : list A) (x : A) :
  List.find f (l ++ [x]) =
  match List.find f l with
  | Some y => Some y
  | None => if f x then Some x else None
  end.
Proof. induction l as [|y l IH]; cbn; [done|]. by destruct (f y). Qed.

Lemma find_none {A : Type} (f : A → bool) (l : list A) :
  (∀ y, y ∈ l → f y = false) → List.find f l = None.
Proof.
  induction l as [|y l IH]; intros Hf; cbn; [done|].
  rewrite Hf by left. apply IH. intros z Hz. apply Hf. by right.
Qed.

(** A strictly greater value makes its move the best. *)
Lemma best_of_snoc_greater (ex : list (Move * Score)) (mv : Move) (val : Score) :
  Score.ltb (best_value ex) val = true →
  best_of (ex ++ [(mv, val)]) = Some mv.
Proof.
  intros Hlt. unfold best_of. rewrite best_value_snoc, find_snoc.
  assert (Score.max (best_value ex) val = val) as ->.
  { unfold Score.max. by rewrite Hlt. }
  rewrite find_none.
  - cbn. unfold Score.geb. by rewrite score_ltb_irrefl.
  - intros p Hp%best_value_ge. revert Hlt Hp.
    generalize (best_value ex), (snd p). intros w x Hlt Hp. score_cases.
Qed.

(** Any other value leaves the best move of a non-empty list. *)
Lemma best_of_snoc_keep (ex : list (Move * Score)) (mv bm : Move) (val : Score) :
  Score.ltb (best_value ex) val = false →
  best_of ex = Some bm →
  best_of (ex ++ [(mv, val)]) = Some bm.
Proof.
  intros Hle. unfold best_of. rewrite best_value_snoc, find_snoc.
  assert (Score.max (best_value ex) val = best_value ex) as ->.
  { unfold Score.max. by rewrite Hle. }
  by destruct (List.find _ ex).
Qed.

Lemma best_of_single (mv : Move) (val : Score) :
  best_of [(mv, val)] = Some mv.
Proof.
  unfold best_of, best_value. cbn. rewrite score_max_neginf_r.
  unfold Score.geb. by rewrite score_ltb_irrefl.
Qed.

Lemma root_loop_best (fuel : nat) (moves : list Move) :
  ∀ best_move best_val alpha st r st',
    root_invariant st moves best_move best_val →
    root_loop fuel moves best_move best_val alpha st = Some (r, st') →
    (∃ n, fst <$> examined st' = (fst <$> examined st) ++ take n moves) ∧
    match examined st' with
    | [] => r = best_move
    | _ :: _ => best_of (examined st') = Some r
    end.
Proof.
  induction moves as [|mv moves IH];
    intros best_move best_val alpha st r st' [Hval Hbest] Hrun.
  { injection Hrun as <- <-. split; [exists 0%nat; by rewrite app_nil_r|].
    by destruct (examined st). }
  cbn [root_loop] in Hrun. unfold bind at 1 in Hrun.
  rewrite out_of_time_run in Hrun.
  destruct (out_now st).
  { injection Hrun as <- <-. split; [exists 0%nat; by rewrite app_nil_r|].
    cbn. by destruct (examined st). }
  unfold bind, board_make_move, count_node, board_undo_move, read_depth,
    note_examined in Hrun.
  destruct (_alphabeta _ _ _ _ _ _) as [[val s2]|] eqn:Hchild; [|done].
  apply alphabeta_examined in Hchild. cbn in Hchild.
  cbn [examined set_board] in Hrun. rewrite Hchild in Hrun.
  assert (∀ n, fst <$> examined st' =
               (fst <$> (examined st ++ [(mv, val)])) ++ take n moves →
          ∃ n', fst <$> examined st' =
                (fst <$> examined st) ++ take n' (mv :: moves)) as Hprefix.
  { intros n ->. exists (S n). rewrite fmap_app, <- app_assoc. done. }
  assert (∀ n, fst <$> examined st' =
               (fst <$> (examined st ++ [(mv, val)])) ++ take n moves →
          examined st' ≠ []) as Hsome.
  { intros n Hn Hnil. rewrite Hnil, fmap_app in Hn.
    by destruct (examined st). }
  destruct (Score.ltb best_val val) eqn:Hlt.
  - apply IH in Hrun as [[n Hn] Hr].
    + split; [by eapply Hprefix|].
      apply Hsome in Hn. by destruct (examined st').
    + split; cbn [examined set_examined]; [by rewrite best_value_snoc, <- Hval;
        unfold Score.max; rewrite Hlt|].
      destruct (examined st ++ [(mv, val)]) eqn:Hex;
        [by destruct (examined st)|].
      rewrite <- Hex. apply best_of_snoc_greater. by rewrite <- Hval.
  - apply IH in Hrun as [[n Hn] Hr].
    + split; [by eapply Hprefix|].
      apply Hsome in Hn. by destruct (examined st').
    + split; cbn [examined set_examined]; [by rewrite best_value_snoc, <- Hval;
        unfold Score.max; rewrite Hlt|].
      destruct (examined st) as [|p ex] eqn:Hex.
      * cbn [app]. rewrite best_of_single. f_equal. by apply Hbest.
      * rewrite <- Hex in *. destruct (examined st ++ [(mv, val)]) eqn:Hex';
          [by destruct (examined st)|].
        rewrite <- Hex'. apply best_of_snoc_keep; [by rewrite <- Hval|done].
Qed.

(** What the root loop keeps, for every clock: [get_best_move] returns the
    earliest move of greatest recorded value among the root moves whose
    search returned, these being the first legal moves in order; when no
    root move was searched it returns the first legal move. *)
Theorem get_best_move_best_examined (fuel : nat) (st : State) :
  get_legal_moves (board st) ≠ [] →
  (1 ≤ depth st → (Z.to_nat (depth st) ≤ fuel)%nat →
   is_Some (get_best_move fuel st)) ∧
  (∀ r st', get_best_move fuel st = Some (r, st') →
     (∃ n, fst <$> examined st' = take n (get_legal_moves (board st))) ∧
     r = match examined st' with
         | [] => head (get_legal_moves (board st))
         | _ :: _ => best_of (examined st')
         end).
Proof.
  intros Hne. split; [apply get_best_move_total|].
  intros r st'. rewrite get_best_move_run.
  destruct (get_legal_moves (board st)) as [|first rest]; [done|].
  destruct (root_loop _ _ _ _ _ _) as [[best s2]|] eqn:Hloop; [|done].
  intros [= <- <-]. apply root_loop_best in Hloop as [Hn Hr].
  - split; [done|]. destruct (examined s2); [by rewrite Hr|done].
  - split; [done|]. cbn. by intros m [= ->].
Qed.

End BestExamined.

(** ** Pruning against unpruned minimax *)

(** Scores are totally ordered; [ScoreFacts.order] decides goals made of
    comparisons of scores. *)
Module ScoreOrder.
Definition t : Type := Score.
Definition eq : t → t → Prop := @Logic.eq Score.
Definition lt : t → t → Prop := Score.lt.
Definition le : t → t → Prop := Score.le.

Lemma eq_equiv : Equivalence eq.
Proof. unfold eq. split; congruence. Qed.

Lemma lt_strorder : StrictOrder lt.
Proof.
  split.
  - intros a Ha. unfold lt, t in *. score_cases.
  - intros a b c Hab Hbc. unfold lt, t in *. score_cases.
Qed.

Lemma lt_compat : Proper (eq ==> eq ==> iff) lt.
Proof. unfold eq. by intros a a' -> b b' ->. Qed.

Lemma le_lteq (a b : Score) : le a b ↔ lt a b ∨ eq a b.
Proof.
  unfold le, lt, eq, Score.le, Score.lt.
  destruct a as [|x|], b as [|y|]; cbn; rewrite ?Z.ltb_lt, ?Z.ltb_ge;
    try (split; [auto|intros [|]; congruence]).
  split.
  - intros Hle. destruct (Z.eq_dec x y) as [->|]; [by right|left; lia].
  - intros [|[= ->]]; lia.
Qed.

Lemma lt_total (a b : Score) : lt a b ∨ eq a b ∨ lt b a.
Proof.
  unfold lt, eq, Score.lt.
  destruct a as [|x|], b as [|y|]; cbn [Score.ltb]; auto.
  rewrite !Z.ltb_lt. destruct (Z.lt_total x y) as [|[->|]]; auto.
Qed.
End ScoreOrder.

Module ScoreFacts := OrdersTac.MakeOrderTac ScoreOrder ScoreOrder.

Lemma score_le_or_gt (a b : Score) : ScoreOrder.le a b ∨ ScoreOrder.lt b a.
Proof.
  unfold ScoreOrder.le, ScoreOrder.lt, Score.le, Score.lt.
  destruct (Score.ltb b a); auto.
Qed.

Section WindowArithmetic.

(** Comparisons are turned into facts on the order of scores; one the
    facts at hand already settle is replaced by its value, another is
    split on. *)
Ltac order_facts :=
  repeat match goal with
         | H : Score.lt ?a ?b |- _ => change (ScoreOrder.lt a b) in H
         | H : Score.le ?a ?b |- _ => change (ScoreOrder.le a b) in H
         | H : @Logic.eq Score ?a ?b |- _ => change (ScoreOrder.eq a b) in H
         end.

Ltac settle_ltb a b :=
  let E := fresh "Hcmp" in
  first [ assert (E : Score.ltb a b = true)
            by (change (ScoreOrder.lt a b); ScoreFacts.order);
          rewrite E in *; clear E
        | assert (E : Score.ltb a b = false)
            by (change (ScoreOrder.le b a); ScoreFacts.order);
          rewrite E in *; clear E
        | destruct (Score.ltb a b) eqn:E;
          [ change (ScoreOrder.lt a b) in E | change (ScoreOrder.le b a) in E ] ];
  cbn [negb] in *; cbv iota in *.

Ltac settle_le H a b :=
  first [ specialize (H ltac:(change (ScoreOrder.le a b); ScoreFacts.order))
        | assert (ScoreOrder.lt b a) by ScoreFacts.order; clear H
        | let Hc := fresh "Hc" in
          destruct (score_le_or_gt a b) as [Hc|Hc]; [specialize (H Hc)|clear H] ].

Ltac settle_lt H a b :=
  first [ specialize (H ltac:(change (ScoreOrder.lt a b); ScoreFacts.order))
        | assert (ScoreOrder.le b a) by ScoreFacts.order; clear H
        | let Hc := fresh "Hc" in
          destruct (score_le_or_gt b a) as [Hc|Hc]; [clear H|specialize (H Hc)] ].

Ltac compare_scores :=
  unfold bracket, max_running, min_running in *;
  unfold Score.geb, Score.max, Score.min in *;
  repeat match goal with H : _ ∧ _ |- _ => destruct H end;
  order_facts;
  repeat match goal with
         | H : context [Score.ltb ?a ?b] |- _ => settle_ltb a b
         | |- context [Score.ltb ?a ?b] => settle_ltb a b
         end;
  try discriminate;
  repeat match goal with
         | H : Score.le ?a ?b → _ |- _ => settle_le H a b; order_facts
         | H : Score.lt ?a ?b → _ |- _ => settle_lt H a b; order_facts
         end;
  repeat split; intros; order_facts;
  repeat match goal with
         | |- Score.lt ?a ?b => change (ScoreOrder.lt a b)
         | |- Score.le ?a ?b => change (ScoreOrder.le a b)
         | |- @Logic.eq Score ?a ?b => change (ScoreOrder.eq a b)
         end;
  try discriminate; ScoreFacts.order.

(** One pass of the maximizing loop that does not cut. *)
Lemma max_step_on (alpha0 beta value m c cv : Score) :
  max_running alpha0 value m →
  Score.lt (Score.max alpha0 value) beta →
  bracket (Score.max alpha0 value) beta c cv →
  Score.geb (Score.max (Score.max alpha0 value) (Score.max value c)) beta = false →
  max_running alpha0 (Score.max value c) (Score.max m cv) ∧
  Score.max (Score.max alpha0 value) (Score.max value c)
  = Score.max alpha0 (Score.max value c) ∧
  Score.lt (Score.max alpha0 (Score.max value c)) beta.
Proof. intros Hrun Hlt Hbr Hcut. compare_scores. Qed.

(** The pass that cuts: the value is a lower bound at or above [beta]. *)
Lemma max_step_cut (alpha0 beta value m c cv rest : Score) :
  max_running alpha0 value m →
  Score.lt (Score.max alpha0 value) beta →
  bracket (Score.max alpha0 value) beta c cv →
  Score.geb (Score.max (Score.max alpha0 value) (Score.max value c)) beta = true →
  bracket alpha0 beta (Score.max value c) (Score.max (Score.max m cv) rest).
Proof. intros Hrun Hlt Hbr Hcut. compare_scores. Qed.

(** The loop ends with no move left. *)
Lemma max_done (alpha0 beta value m : Score) :
  max_running alpha0 value m →
  Score.lt (Score.max alpha0 value) beta →
  bracket alpha0 beta value (Score.max m NegInf).
Proof.
  intros Hrun Hlt. pose proof (score_le_neginf m). compare_scores.
Qed.

Lemma min_step_on (alpha beta0 value m c cv : Score) :
  min_running beta0 value m →
  Score.lt alpha (Score.min beta0 value) →
  bracket alpha (Score.min beta0 value) c cv →
  Score.geb alpha (Score.min (Score.min beta0 value) (Score.min value c)) = false →
  min_running beta0 (Score.min value c) (Score.min m cv) ∧
  Score.min (Score.min beta0 value) (Score.min value c)
  = Score.min beta0 (Score.min value c) ∧
  Score.lt alpha (Score.min beta0 (Score.min value c)).
Proof. intros Hrun Hlt Hbr Hcut. compare_scores. Qed.

Lemma min_step_cut (alpha beta0 value m c cv rest : Score) :
  min_running beta0 value m →
  Score.lt alpha (Score.min beta0 value) →
  bracket alpha (Score.min beta0 value) c cv →
  Score.geb alpha (Score.min (Score.min beta0 value) (Score.min value c)) = true →
  bracket alpha beta0 (Score.min value c) (Score.min (Score.min m cv) rest).
Proof. intros Hrun Hlt Hbr Hcut. compare_scores. Qed.

Lemma min_done (alpha beta0 value m : Score) :
  min_running beta0 value m →
  Score.lt alpha (Score.min beta0 value) →
  bracket alpha beta0 value (Score.min m PosInf).
Proof.
  intros Hrun Hlt. pose proof (score_le_posinf m). compare_scores.
Qed.

Lemma score_min_assoc (a b c : Score) :
  Score.min a (Score.min b c) = Score.min (Score.min a b) c.
Proof. compare_scores. Qed.

(** An exact value brackets itself in any window. *)
Lemma bracket_refl (alpha beta v : Score) : bracket alpha beta v v.
Proof. compare_scores. Qed.

(** At the root, where [beta] is [math.inf] and minimax values are
    finite: a value above [best_val] is exact, another one hides a
    minimax value that is no better. *)
Lemma root_step (best_val c cv : Score) :
  Score.is_fin cv →
  bracket best_val PosInf c cv →
  (Score.ltb best_val c = true → c = cv) ∧
  (Score.ltb best_val c = false → Score.ltb best_val cv = false).
Proof.
  intros Hfin Hbr. destruct cv as [|z|]; try done.
  assert (Score.lt (Fin z) PosInf) by done.
  assert (Hinf : ∀ x, Score.le PosInf x → x = PosInf) by (by intros []).
  split; intros Hcmp.
  - destruct Hbr as (_ & Hhi & Hmid). apply Hmid; [done|].
    destruct (score_le_or_gt PosInf c) as [Hc|Hc]; [|done].
    apply Hinf in Hc as ->. specialize (Hhi eq_refl). done.
  - destruct Hbr as (Hlo & _ & _). specialize (Hlo Hcmp).
    change (Score.le c best_val) in Hcmp. compare_scores.
Qed.

End WindowArithmetic.

Section Refinement.
Context {cfg : Config} {api : BoardAPI} `{!BoardLaws api}.

Lemma calm_out (st : State) : calm st → out_now st = false.
Proof.
  intros Hcalm. unfold out_now. apply Z.leb_gt. by apply Hcalm.
Qed.

Lemma calm_kept (st st' : State) : calm st → context_kept st st' → calm st'.
Proof.
  intros Hcalm [_ Hb Hs _ Hr Hc] k Hk. rewrite Hb, Hs, Hr. apply Hcalm. lia.
Qed.

Lemma minimax_unfold (rw : bool) (d : nat) (maximizing : bool) (b : Board) :
  minimax rw d maximizing b =
  if String.eqb (get_game_state b) "checkmate" then
    Fin (if Bool.eqb (white_to_move b) rw then -1000000 else 1000000)
  else if String.eqb (get_game_state b) "stalemate" then Fin (static rw b)
  else
    match d with
    | O => Fin (static rw b)
    | S d' =>
        match get_legal_moves b with
        | [] => Fin (static rw b)
        | moves =>
            if maximizing then
              foldr Score.max NegInf
                    ((λ mv, minimax rw d' false (make_move mv b)) <$> moves)
            else
              foldr Score.min PosInf
                    ((λ mv, minimax rw d' true (make_move mv b)) <$> moves)
        end
    end.
Proof. by destruct d. Qed.

(** Minimax values are finite. *)
Lemma minimax_fin (rw : bool) (d : nat) :
  ∀ maximizing b, Score.is_fin (minimax rw d maximizing b).
Proof.
  induction d as [|d IH]; intros maximizing b; rewrite minimax_unfold;
    repeat (destruct (String.eqb _ _); [done|]); [done|].
  destruct (get_legal_moves b) as [|mv moves]; [done|].
  destruct maximizing.
  - cbn [fmap list_fmap foldr].
    assert (foldr Score.max NegInf
              ((λ mv, minimax rw d false (make_move mv b)) <$> moves) ≠ PosInf)
      as Hrest.
    { induction moves as [|m moves IHm]; [done|]. cbn.
      pose proof (IH false (make_move m b)) as Hm.
      destruct (minimax rw d false (make_move m b)); try done.
      destruct (foldr _ _ _); try done. unfold Score.max. by destruct (Score.ltb _ _). }
    pose proof (IH false (make_move mv b)) as Hmv.
    destruct (minimax rw d false (make_move mv b)); try done.
    destruct (foldr _ _ _); try done. unfold Score.max. by destruct (Score.ltb _ _).
  - cbn [fmap list_fmap foldr].
    assert (foldr Score.min PosInf
              ((λ mv, minimax rw d true (make_move mv b)) <$> moves) ≠ NegInf)
      as Hrest.
    { induction moves as [|m moves IHm]; [done|]. cbn.
      pose proof (IH true (make_move m b)) as Hm.
      destruct (minimax rw d true (make_move m b)); try done.
      destruct (foldr _ _ _); try done. unfold Score.min. by destruct (Score.ltb _ _). }
    pose proof (IH true (make_move mv b)) as Hmv.
    destruct (minimax rw d true (make_move mv b)); try done.
    destruct (foldr _ _ _); try done. unfold Score.min. by destruct (Score.ltb _ _).
Qed.

Lemma alphabeta_frame fuel d alpha beta maximizing st r st' :
  _alphabeta fuel d alpha beta maximizing st = Some (r, st') →
  restored st st' ∧ context_kept st st'.
Proof. eauto using alphabeta_restored, alphabeta_kept. Qed.

(** After [make_move(mv)], a call that restores, and [undo_move()], the
    loop goes on from a state like the one it started the pass in. *)
Lemma pass_frame (st s2 : State) (mv : Move) :
  mv ∈ get_legal_moves (board st) →
  restored (set_nodes_expanded (nodes_expanded st + 1)
              (set_board (make_move mv (board st)) (MakeMove mv) (tick st))) s2 →
  context_kept (set_nodes_expanded (nodes_expanded st + 1)
              (set_board (make_move mv (board st)) (MakeMove mv) (tick st))) s2 →
  board (set_board (undo_move (board s2)) UndoMove s2) = board st ∧
  context_kept st (set_board (undo_move (board s2)) UndoMove s2).
Proof.
  intros Hmv Hres [Hd Hb Hs Hr Hrd Hc]. split.
  - apply (restored_round_trip (tick st) mv s2) in Hres; [|done].
    by destruct Hres.
  - split; cbn in *; try done. lia.
Qed.

Section Loops.
Variable child : Score → Score → M Score.
Variable rw : bool.
Variable b0 : Board.
Variable next : bool.
Variable d' : nat.
Hypothesis child_frame : ∀ a b s r s',
  child a b s = Some (r, s') → restored s s' ∧ context_kept s s'.
Hypothesis child_bracket : ∀ a b s r s',
  Score.lt a b → calm s → root_is_white s = rw →
  child a b s = Some (r, s') →
  bracket a b r (minimax rw d' next (board s)).

Lemma max_loop_bracket (beta : Score) (moves : list Move) :
  ∀ value alpha alpha0 m st r st',
    board st = b0 → root_is_white st = rw → calm st →
    (∀ mv, mv ∈ moves → mv ∈ get_legal_moves b0) →
    max_running alpha0 value m →
    alpha = Score.max alpha0 value →
    Score.lt alpha beta →
    max_loop child moves value alpha beta st = Some (r, st') →
    bracket alpha0 beta r
      (Score.max m (foldr Score.max NegInf
         ((λ mv, minimax rw d' next (make_move mv b0)) <$> moves))).
Proof.
  induction moves as [|mv moves IH];
    intros value alpha alpha0 m st r st' Hb Hrw Hcalm Hin Hrun -> Hlt Hloop.
  { injection Hloop as <- _. by apply max_done. }
  cbn [max_loop] in Hloop. unfold bind at 1 in Hloop.
  rewrite out_of_time_run, (calm_out _ Hcalm) in Hloop.
  unfold bind, board_make_move, count_node, board_undo_move in Hloop.
  cbn [nodes_expanded board set_board tick] in Hloop.
  match type of Hloop with
  | match child ?a ?b ?s with _ => _ end = _ =>
      destruct (child a b s) as [[c s2]|] eqn:Hchild; [|done]
  end.
  pose proof (child_frame _ _ _ _ _ Hchild) as [Hres Hkept].
  apply child_bracket in Hchild; [|done| |by rewrite <- Hrw].
  2:{ eapply calm_kept; [exact Hcalm|]. split; cbn; try done. lia. }
  cbn [board set_nodes_expanded set_board] in Hchild. rewrite Hb in Hchild.
  destruct (pass_frame st s2 mv) as [Hb3 Hk3]; [rewrite Hb; apply Hin; left|done..|].
  cbn [fmap list_fmap foldr]. rewrite score_max_assoc.
  destruct (Score.geb _ _) eqn:Hcut.
  - injection Hloop as <- _. by apply max_step_cut.
  - destruct (max_step_on _ _ _ _ _ _ Hrun Hlt Hchild Hcut) as (Hrun' & Ha & Hlt').
    rewrite Ha in Hloop. eapply IH in Hloop; eauto.
    + congruence.
    + by rewrite (kept_root _ _ Hk3).
    + by eapply calm_kept.
    + intros mv' Hmv'. apply Hin. by right.
Qed.

Lemma min_loop_bracket (alpha : Score) (moves : list Move) :
  ∀ value beta beta0 m st r st',
    board st = b0 → root_is_white st = rw → calm st →
    (∀ mv, mv ∈ moves → mv ∈ get_legal_moves b0) →
    min_running beta0 value m →
    beta = Score.min beta0 value →
    Score.lt alpha beta →
    min_loop child moves value alpha beta st = Some (r, st') →
    bracket alpha beta0 r
      (Score.min m (foldr Score.min PosInf
         ((λ mv, minimax rw d' next (make_move mv b0)) <$> moves))).
Proof.
  induction moves as [|mv moves IH];
    intros value beta beta0 m st r st' Hb Hrw Hcalm Hin Hrun -> Hlt Hloop.
  { injection Hloop as <- _. by apply min_done. }
  cbn [min_loop] in Hloop. unfold bind at 1 in Hloop.
  rewrite out_of_time_run, (calm_out _ Hcalm) in Hloop.
  unfold bind, board_make_move, count_node, board_undo_move in Hloop.
  cbn [nodes_expanded board set_board tick] in Hloop.
  match type of Hloop with
  | match child ?a ?b ?s with _ => _ end = _ =>
      destruct (child a b s) as [[c s2]|] eqn:Hchild; [|done]
  end.
  pose proof (child_frame _ _ _ _ _ Hchild) as [Hres Hkept].
  apply child_bracket in Hchild; [|done| |by rewrite <- Hrw].
  2:{ eapply calm_kept; [exact Hcalm|]. split; cbn; try done. lia. }
  cbn [board set_nodes_expanded set_board] in Hchild. rewrite Hb in Hchild.
  destruct (pass_frame st s2 mv) as [Hb3 Hk3]; [rewrite Hb; apply Hin; left|done..|].
  cbn [fmap list_fmap foldr]. rewrite score_min_assoc.
  destruct (Score.geb _ _) eqn:Hcut.
  - injection Hloop as <- _. by apply min_step_cut.
  - destruct (min_step_on _ _ _ _ _ _ Hrun Hlt Hchild Hcut) as (Hrun' & Ha & Hlt').
    rewrite Ha in Hloop. eapply IH in Hloop; eauto.
    + congruence.
    + by rewrite (kept_root _ _ Hk3).
    + by eapply calm_kept.
    + intros mv' Hmv'. apply Hin. by right.
Qed.

End Loops.

Lemma match_nonempty {A : Type} (l : list A) (P Q : Prop) :
  l ≠ [] → Q → match l with [] => P | _ :: _ => Q end.
Proof. by destruct l. Qed.

(** With no time pressure, [_alphabeta] brackets the minimax value of the
    node it is called on. *)
Lemma alphabeta_bracket (fuel : nat) :
  ∀ d alpha beta maximizing st r st',
    0 ≤ d → Score.lt alpha beta → calm st →
    _alphabeta fuel d alpha beta maximizing st = Some (r, st') →
    bracket alpha beta r
      (minimax (root_is_white st) (Z.to_nat d) maximizing (board st)).
Proof.
  induction fuel as [|fuel IH];
    intros d alpha beta maximizing st r st' Hd Hlt Hcalm Hrun; [done|].
  cbn [_alphabeta] in Hrun. unfold bind at 1 in Hrun.
  rewrite out_of_time_run, (calm_out _ Hcalm) in Hrun.
  unfold bind at 1, read_board at 1 in Hrun. cbn [board tick] in Hrun.
  rewrite minimax_unfold.
  destruct (String.eqb _ "checkmate").
  { injection Hrun as <- _. apply bracket_refl. }
  destruct (String.eqb _ "stalemate").
  { injection Hrun as <- _. apply bracket_refl. }
  cbn [orb] in Hrun. destruct (Z.eqb_spec d 0) as [->|Hne].
  { injection Hrun as <- _. apply bracket_refl. }
  replace (Z.to_nat d) with (S (Z.to_nat (d - 1))) by lia.
  unfold bind at 1, read_board at 1 in Hrun. cbn [board tick] in Hrun.
  destruct (get_legal_moves (board st)) as [|mv moves] eqn:Hmoves.
  { injection Hrun as <- _. apply bracket_refl. }
  assert (calm (tick st)) as Hcalm'.
  { eapply calm_kept; [exact Hcalm|]. split; cbn; try done. lia. }
  destruct maximizing.
  - eapply (max_loop_bracket _ (root_is_white st) (board st) false
              (Z.to_nat (d - 1))) in Hrun.
    + rewrite score_max_neginf_l in Hrun. exact Hrun.
    + intros a b s r' s'. apply alphabeta_frame.
    + intros a b s r' s' Hab Hs <- Hr'. eapply IH; [| | |exact Hr']; [lia|done..].
    + done.
    + done.
    + done.
    + by rewrite Hmoves.
    + split; [done|]. by intros [].
    + by rewrite score_max_neginf_r.
    + done.
  - eapply (min_loop_bracket _ (root_is_white st) (board st) true
              (Z.to_nat (d - 1))) in Hrun.
    + rewrite score_min_posinf_l in Hrun. exact Hrun.
    + intros a b s r' s'. apply alphabeta_frame.
    + intros a b s r' s' Hab Hs <- Hr'. eapply IH; [| | |exact Hr']; [lia|done..].
    + done.
    + done.
    + done.
    + by rewrite Hmoves.
    + split; [done|]. intros Hinf. by destruct beta.
    + by rewrite score_min_posinf_r.
    + done.
Qed.

(** The root loop, with no time pressure, against the minimax values of
    the root moves: [seen] are the moves already gone through. *)
Lemma root_loop_minimax (fuel : nat) (b0 : Board) (rw : bool) (dz : Z)
    (moves : list Move) :
  ∀ seen best_move best_val alpha st r st',
    board st = b0 → root_is_white st = rw → depth st = dz → 1 ≤ dz →
    calm st →
    (∀ mv, mv ∈ moves → mv ∈ get_legal_moves b0) →
    let scored := λ mv, (mv, minimax rw (Z.to_nat (dz - 1)) false (make_move mv b0)) in
    best_val = best_value (scored <$> seen) →
    alpha = best_val →
    Score.lt best_val PosInf →
    match seen with
    | [] => ∀ m, head moves = Some m → m = best_move
    | _ :: _ => best_of (scored <$> seen) = Some best_move
    end →
    root_loop fuel moves best_move best_val alpha st = Some (r, st') →
    match seen ++ moves with
    | [] => r = best_move
    | _ :: _ => best_of (scored <$> (seen ++ moves)) = Some r
    end.
Proof.
  induction moves as [|mv moves IH];
    intros seen best_move best_val alpha st r st' Hb Hrw Hdz Hd Hcalm Hin scored
      Hval -> Hfin Hbest Hrun.
  { injection Hrun as <- _. rewrite app_nil_r. by destruct seen. }
  cbn [root_loop] in Hrun. unfold bind at 1 in Hrun.
  rewrite out_of_time_run, (calm_out _ Hcalm) in Hrun.
  unfold bind, board_make_move, count_node, board_undo_move, read_depth,
    note_examined in Hrun.
  cbn [nodes_expanded board depth set_board set_nodes_expanded tick] in Hrun.
  destruct (_alphabeta _ _ _ _ _ _) as [[c s2]|] eqn:Hchild; [|done].
  pose proof (alphabeta_frame _ _ _ _ _ _ _ _ Hchild) as [Hres Hkept].
  apply alphabeta_bracket in Hchild; [|lia|done|].
  2:{ eapply calm_kept; [exact Hcalm|]. split; cbn; try done. lia. }
  cbn [board root_is_white set_nodes_expanded set_board tick] in Hchild.
  rewrite Hb, Hrw, Hdz in Hchild.
  destruct (pass_frame st s2 mv) as [Hb3 Hk3]; [rewrite Hb; apply Hin; left|done..|].
  destruct (root_step best_val c _ (minimax_fin _ _ _ _) Hchild) as [Hup Hkeep].
  replace (seen ++ mv :: moves) with ((seen ++ [mv]) ++ moves)
    by (by rewrite <- app_assoc).
  assert (scored <$> seen ++ [mv] = (scored <$> seen) ++ [scored mv]) as Hsnoc
    by (by rewrite fmap_app).
  destruct Hk3 as [Kd Kb Ks Kr Krd Kc]. cbn in Kd, Kb, Ks, Kr, Krd, Kc, Hb3.
  assert (∀ l, calm (set_examined l (set_board (undo_move (board s2)) UndoMove s2)))
    as Hcalm3.
  { intros l. eapply calm_kept; [exact Hcalm|]. by split. }
  destruct (Score.ltb best_val c) eqn:Hcmp.
  - specialize (Hup eq_refl). subst c.
    eapply (IH (seen ++ [mv])) in Hrun;
      first (destruct ((seen ++ [mv]) ++ moves) eqn:Hall;
             [by destruct seen|exact Hrun]).
    + cbn. congruence.
    + cbn. congruence.
    + cbn. congruence.
    + done.
    + apply Hcalm3.
    + intros mv' Hmv'. apply Hin. by right.
    + fold scored. rewrite Hsnoc. unfold scored at 2.
      rewrite best_value_snoc, <- Hval. unfold Score.max. by rewrite Hcmp.
    + unfold Score.max. by rewrite Hcmp.
    + pose proof (minimax_fin rw (Z.to_nat (dz - 1)) false (make_move mv b0)).
      by destruct (minimax _ _ _ _).
    + fold scored. apply match_nonempty; [by destruct seen|].
      rewrite Hsnoc. apply best_of_snoc_greater. by rewrite <- Hval.
  - specialize (Hkeep eq_refl).
    eapply (IH (seen ++ [mv])) in Hrun;
      first (destruct ((seen ++ [mv]) ++ moves) eqn:Hall;
             [by destruct seen|exact Hrun]).
    + cbn. congruence.
    + cbn. congruence.
    + cbn. congruence.
    + done.
    + apply Hcalm3.
    + intros mv' Hmv'. apply Hin. by right.
    + fold scored. rewrite Hsnoc. unfold scored at 2.
      rewrite best_value_snoc, <- Hval. unfold Score.max. by rewrite Hkeep.
    + unfold Score.max. by rewrite Hcmp.
    + done.
    + fold scored. destruct seen as [|m0 seen'] eqn:Hseen.
      * cbn in Hval. subst best_val.
        pose proof (minimax_fin rw (Z.to_nat (dz - 1)) false (make_move mv b0)).
        by destruct (minimax _ _ _ _).
      * rewrite <- Hseen in *. apply match_nonempty; [by destruct seen|].
        rewrite Hsnoc. apply best_of_snoc_keep; [by rewrite <- Hval|].
        by rewrite Hseen in *.
Qed.

(** C2.  On a position with a legal move, for every depth of at least
    one ply and a clock that never reaches the budget during the call,
    [get_best_move] returns the root move that unpruned minimax of that
    depth selects: the earliest root move of greatest minimax value. *)
Theorem alphabeta_selects_minimax_move (fuel : nat) (st : State) :
  1 ≤ depth st → (Z.to_nat (depth st) ≤ fuel)%nat →
  get_legal_moves (board st) ≠ [] →
  no_time_pressure st →
  ∃ st', get_best_move fuel st
         = Some (minimax_best_move (Z.to_nat (depth st)) (board st), st').
Proof.
  intros Hd Hfuel Hne Hcalm.
  destruct (get_best_move_total fuel st Hd Hfuel) as [[r st'] Hrun].
  exists st'. rewrite Hrun. f_equal. f_equal.
  rewrite get_best_move_run in Hrun.
  destruct (get_legal_moves (board st)) as [|first rest] eqn:Hmoves; [done|].
  destruct (root_loop _ _ _ _ _ _) as [[best s2]|] eqn:Hloop; [|done].
  injection Hrun as <- <-.
  pose proof (root_loop_minimax fuel (board st) (white_to_move (board st))
                (depth st) (first :: rest) [] first NegInf NegInf (started st)
                best s2) as Hbest.
  change ([] ++ first :: rest) with (first :: rest) in Hbest.
  unfold minimax_best_move, root_values.
  rewrite Hmoves. replace (Z.to_nat (depth st) - 1)%nat
    with (Z.to_nat (depth st - 1)) by lia.
  assert (calm (started st)) as Hstart.
  { intros k Hk. apply (Hcalm k). cbn in Hk. lia. }
  specialize (Hbest eq_refl eq_refl eq_refl Hd Hstart).
  cbv zeta iota in Hbest. rewrite Hbest; try done.
  - intros mv Hmv. by rewrite Hmoves.
  - by intros m [= ->].
Qed.

End Refinement.

(** ** The agent on explicit game trees *)

Section OnGameTrees.
Import GameTree.
#[local] Existing Instance GameTree.api.
#[local] Existing Instance GameTree.cfg.

Lemma game_tree_laws : BoardLaws GameTree.api.
Proof. split. by intros [t ts] mv _. Qed.

Lemma sample_names_distinct : NoDup identities.
Proof. apply (bool_decide_unpack _). by vm_compute. Qed.

Lemma sample_config_symmetric : symmetric_config.
Proof. split; [apply sample_names_distinct|by vm_compute..]. Qed.

Lemma kings_pawn_well_formed : well_formed (cell kings_pawn).
Proof.
  intros r c Hr Hc. apply (bool_decide_unpack _).
  do 8 (destruct r as [|r]; [do 4 (destruct c as [|c]; [by vm_compute|]); cbn in Hc; lia|]).
  cbn in Hr. lia.
Qed.

Ltac each_cell r c Hr Hc :=
  do 8 (destruct r as [|r];
        [do 4 (destruct c as [|c]; [by vm_compute|]); cbn in Hc; lia|]);
  cbn in Hr; lia.

Lemma sample_cells_bounded : cells_bounded 700.
Proof.
  intros p r c Hr Hc. unfold material, _pst_value.
  destruct (String.eqb_spec p WHITE_PAWN) as [->|N1]; [each_cell r c Hr Hc|].
  destruct (String.eqb_spec p BLACK_PAWN) as [->|N2]; [each_cell r c Hr Hc|].
  destruct (String.eqb_spec p WHITE_KNIGHT) as [->|N3]; [each_cell r c Hr Hc|].
  destruct (String.eqb_spec p BLACK_KNIGHT) as [->|N4]; [each_cell r c Hr Hc|].
  destruct (String.eqb_spec p WHITE_BISHOP) as [->|N5]; [each_cell r c Hr Hc|].
  destruct (String.eqb_spec p BLACK_BISHOP) as [->|N6]; [each_cell r c Hr Hc|].
  destruct (String.eqb_spec p WHITE_KING) as [->|N7]; [each_cell r c Hr Hc|].
  destruct (String.eqb_spec p BLACK_KING) as [->|N8]; [each_cell r c Hr Hc|].
  cbn [PIECE_VALUES cfg]. rewrite (not_elem_of_list_to_map_1 _ p); [done|].
  cbn. rewrite !not_elem_of_cons. repeat split; try done. apply not_elem_of_nil.
Qed.

(** Witness of C1: the sample position, depth 3, a budget of five ticks
    that runs out in the middle of the search. *)
Lemma get_best_move_restores_board_witness :
  ∃ r st', get_best_move 3 (hurried 5) = Some (r, st') ∧
           board st' = board (hurried 5) ∧
           ∃ t, calls st' = calls (hurried 5) ++ t ∧ paired t ∧
                count_makes t = count_undos t.
Proof.
  destruct (get_best_move_restores_board (BoardLaws0 := game_tree_laws)
              3 (hurried 5)) as (Hreturns & Hrestores & _).
  destruct Hreturns as [[r st'] Hrun]; [cbn; lia..|].
  exists r, st'. split; [exact Hrun|]. exact (Hrestores r st' Hrun).
Defined.

(** Witness of C3. *)
Lemma get_best_move_returns_legal_move_witness :
  get_legal_moves (board (hurried 5)) ≠ [] ∧
  ∃ r st', get_best_move 3 (hurried 5) = Some (r, st') ∧
           ∃ mv, r = Some mv ∧ mv ∈ get_legal_moves (board (hurried 5)).
Proof.
  assert (get_legal_moves (board (hurried 5)) ≠ []) as Hne by (by vm_compute).
  split; [exact Hne|].
  destruct (get_best_move_returns_legal_move 3 (hurried 5) Hne)
    as [Hreturns Hlegal].
  destruct Hreturns as [[r st'] Hrun]; [cbn; lia..|].
  exists r, st'. split; [exact Hrun|]. exact (Hlegal r st' Hrun).
Defined.

(** Witness of C4. *)
Lemma get_best_move_no_legal_move_witness :
  get_legal_moves (board cornered) = [] ∧
  ∃ st', get_best_move 3 cornered = Some (None, st') ∧
         board st' = board cornered ∧ calls st' = calls cornered ∧
         nodes_expanded st' = 0.
Proof.
  split; [reflexivity|].
  exact (get_best_move_no_legal_move 3 cornered eq_refl).
Defined.

(** Witness of C10: a budget of one tick is gone at the first reading of
    the root loop. *)
Lemma get_best_move_expired_at_entry_witness :
  get_legal_moves (board (hurried 1)) = [0; 1; 2]%nat ∧
  time_budget (hurried 1)
  ≤ readings (hurried 1) (S (clock (hurried 1)))
    - readings (hurried 1) (clock (hurried 1)) ∧
  ∃ st', get_best_move 3 (hurried 1) = Some (Some 0%nat, st') ∧
         board st' = board (hurried 1) ∧ calls st' = calls (hurried 1) ∧
         nodes_expanded st' = 0 ∧ examined st' = [].
Proof.
  split; [reflexivity|]. split; [by vm_compute|].
  apply (get_best_move_expired_at_entry 3 (hurried 1) 0%nat [1; 2]%nat eq_refl).
  by vm_compute.
Defined.

(** Witness of C5: the mated reply of the sample tree. *)
Lemma checkmate_score_dominates_witness :
  _alphabeta 1 2 NegInf PosInf false mated = Some (Fin 1000000, tick mated) ∧
  ∀ s : State, ∃ v, evaluate_board s = Some (v, s) ∧ Z.abs v < 1000000.
Proof.
  apply (checkmate_score_dominates 0 2 NegInf PosInf false mated 700).
  - reflexivity.
  - reflexivity.
  - exact sample_cells_bounded.
  - by vm_compute.
Defined.

(** Witness of C9: the sample grid with a pawn, black to move, against
    its mirror with white to move. *)
Lemma raw_score_mirror_witness :
  raw_score true true false (mirror (cell kings_pawn))
  = - raw_score true false false (cell kings_pawn).
Proof.
  exact (raw_score_mirror sample_config_symmetric true false false
           (cell kings_pawn) kings_pawn_well_formed).
Defined.

(** The same on the sample position with a budget of five ticks. *)
Lemma get_best_move_best_examined_witness :
  get_legal_moves (board (hurried 5)) ≠ [] ∧
  ∃ r st', get_best_move 3 (hurried 5) = Some (r, st') ∧
    (∃ n, fst <$> examined st' = take n (get_legal_moves (board (hurried 5)))) ∧
    r = match examined st' with
        | [] => head (get_legal_moves (board (hurried 5)))
        | _ :: _ => best_of (examined st')
        end.
Proof.
  assert (get_legal_moves (board (hurried 5)) ≠ []) as Hne by (by vm_compute).
  split; [exact Hne|].
  destruct (get_best_move_best_examined 3 (hurried 5) Hne) as [Hreturns Hbest].
  destruct Hreturns as [[r st'] Hrun]; [cbn; lia..|].
  exists r, st'. split; [exact Hrun|]. exact (Hbest r st' Hrun).
Defined.


(** Witness of C2: the sample position, depth 3, a clock that stands
    still. *)
Lemma alphabeta_selects_minimax_move_witness :
  ∃ st', get_best_move 3 relaxed
         = Some (minimax_best_move 3 (board relaxed), st').
Proof.
  apply (alphabeta_selects_minimax_move (BoardLaws0 := game_tree_laws) 3 relaxed).
  - by vm_compute.
  - cbn. lia.
  - by vm_compute.
  - intros k Hk. by vm_compute.
Defined.

(** C8 (the code's behaviour).  On the sample position with a budget of
    one tick, the clock passes the check at the top of [_alphabeta] and
    fails the one of the first pass of the loop: the call returns the
    initial value of the loop, [-math.inf] when maximizing and [math.inf]
    when minimizing.  With a budget of three ticks this happens in the
    search of the first root move, which [get_best_move] then records and
    returns with the value [math.inf]. *)
Theorem alphabeta_returns_loop_initializer :
  fst <$> _alphabeta 3 2 NegInf PosInf true (hurried 1) = Some NegInf ∧
  fst <$> _alphabeta 3 2 NegInf PosInf false (hurried 1) = Some PosInf ∧
  (λ p, (fst p, examined (snd p))) <$> get_best_move 3 (hurried 3)
  = Some (Some 0%nat, [(0%nat, PosInf)]).
Proof. by vm_compute. Qed.

End OnGameTrees.

(** * Further properties of the search *)

(** ** The history of board calls *)

Section CallHistory.
Context {api : BoardAPI}.

Lemma count_makes_app (t1 t2 : list BoardCall) :
  count_makes (t1 ++ t2) = (count_makes t1 + count_makes t2)%nat.
Proof. unfold count_makes. by rewrite List.filter_app, length_app. Qed.

Lemma count_undos_app (t1 t2 : list BoardCall) :
  count_undos (t1 ++ t2) = (count_undos t1 + count_undos t2)%nat.
Proof. unfold count_undos. by rewrite List.filter_app, length_app. Qed.

Lemma nested_mono (n m : nat) (t : list BoardCall) :
  nested n t → (n ≤ m)%nat → nested m t.
Proof.
  intros Ht. revert m. induction Ht as [n|n mv inner rest _ IH1 _ IH2];
    intros m Hm; [constructor|].
  destruct m as [|m]; [lia|]. constructor; [apply IH1|apply IH2]; lia.
Qed.

Lemma nested_app (n : nat) (t1 t2 : list BoardCall) :
  nested n t1 → nested n t2 → nested n (t1 ++ t2).
Proof.
  intros H1 H2. induction H1 as [n|n mv inner rest Hin _ Hrest IH]; [done|].
  cbn. rewrite <- app_assoc. cbn. constructor; [done|by apply IH].
Qed.

Lemma nested_wrap (n : nat) (mv : Move) (t : list BoardCall) :
  nested n t → nested (S n) (MakeMove mv :: t ++ [UndoMove]).
Proof. intros Ht. constructor; [done|constructor]. Qed.

Lemma nested_paired (n : nat) (t : list BoardCall) : nested n t → paired t.
Proof. induction 1; by constructor. Qed.

Lemma paired_nested (t : list BoardCall) : paired t → nested (length t) t.
Proof.
  induction 1 as [|mv inner rest _ IH1 _ IH2]; [constructor|].
  cbn [length]. rewrite length_app. cbn [length]. constructor.
  - eapply nested_mono; [exact IH1|lia].
  - eapply nested_mono; [exact IH2|lia].
Qed.

(** In every prefix of a nested history the moves undone never outnumber
    the moves made, and at most [n] moves are outstanding. *)
Lemma nested_prefix (n : nat) (t : list BoardCall) :
  nested n t →
  ∀ k, (count_undos (take k t) ≤ count_makes (take k t)
        ≤ count_undos (take k t) + n)%nat.
Proof.
  induction 1 as [n|n mv inner rest Hin IH1 Hrest IH2]; intros k.
  { rewrite take_nil. cbn. lia. }
  destruct k as [|k]; [cbn; lia|].
  cbn [take]. change (MakeMove mv :: take k (inner ++ UndoMove :: rest))
    with ([MakeMove mv] ++ take k (inner ++ UndoMove :: rest)).
  rewrite count_makes_app, count_undos_app, take_app.
  rewrite count_makes_app, count_undos_app.
  change (count_makes [MakeMove mv]) with 1%nat.
  change (count_undos [MakeMove mv]) with 0%nat.
  destruct (decide (k ≤ length inner)%nat) as [Hk|Hk].
  - replace (k - length inner)%nat with 0%nat by lia. cbn [take].
    change (count_makes []) with 0%nat. change (count_undos []) with 0%nat.
    specialize (IH1 k). lia.
  - rewrite (take_ge inner) by lia.
    pose proof (paired_balanced _ (nested_paired _ _ Hin)) as Hbal.
    destruct (k - length inner)%nat as [|j] eqn:Hj; [lia|].
    cbn [take]. change (UndoMove :: take j rest) with ([UndoMove] ++ take j rest).
    rewrite count_makes_app, count_undos_app.
    change (count_makes [UndoMove]) with 0%nat.
    change (count_undos [UndoMove]) with 1%nat.
    specialize (IH2 j). lia.
Qed.

End CallHistory.

Section CountedCalls.
Context {cfg : Config} {api : BoardAPI}.

Lemma counted_refl (s : State) : counted s s.
Proof.
  exists []. rewrite app_nil_r. split; [done|]. split; [constructor|cbn; lia].
Qed.

Lemma counted_trans (s1 s2 s3 : State) :
  counted s1 s2 → counted s2 s3 → counted s1 s3.
Proof.
  intros (t1 & Ht1 & Hp1 & Hn1) (t2 & Ht2 & Hp2 & Hn2). exists (t1 ++ t2).
  split; [by rewrite Ht2, Ht1, app_assoc|]. split; [by apply paired_app|].
  rewrite count_makes_app. lia.
Qed.

Lemma counted_wrap (s : State) (mv : Move) (s2 : State) :
  counted (set_nodes_expanded (nodes_expanded s + 1)
             (set_board (make_move mv (board s)) (MakeMove mv) s)) s2 →
  counted s (set_board (undo_move (board s2)) UndoMove s2).
Proof.
  intros (t & Ht & Hp & Hn). cbn in Ht, Hn.
  exists (MakeMove mv :: t ++ [UndoMove]). split; [|split].
  - cbn. rewrite Ht, <- !app_assoc. done.
  - by apply paired_wrap.
  - change (MakeMove mv :: t ++ [UndoMove]) with ([MakeMove mv] ++ t ++ [UndoMove]).
    rewrite !count_makes_app.
    change (count_makes [MakeMove mv]) with 1%nat.
    change (count_makes [UndoMove]) with 0%nat. cbn [nodes_expanded set_board]. lia.
Qed.

Lemma alphabeta_counted fuel d alpha beta maximizing st r st' :
  _alphabeta fuel d alpha beta maximizing st = Some (r, st') → counted st st'.
Proof.
  apply (alphabeta_rel counted (λ _ _, True)).
  - apply counted_refl.
  - apply counted_trans.
  - intros s. apply (counted_refl s).
  - intros s mv s2 _. apply counted_wrap.
  - done.
  - done.
Qed.

Lemma root_loop_counted fuel moves best_move best_val alpha st r st' :
  root_loop fuel moves best_move best_val alpha st = Some (r, st') →
  counted st st'.
Proof.
  apply (root_loop_rel counted (λ _ _, True)).
  - apply counted_refl.
  - apply counted_trans.
  - intros s. apply (counted_refl s).
  - intros s mv s2 _. apply counted_wrap.
  - done.
  - done.
  - intros s l. apply (counted_refl s).
  - done.
Qed.

Lemma get_best_move_counted (fuel : nat) (st : State) (r : option Move) (st' : State) :
  get_best_move fuel st = Some (r, st') →
  ∃ t, calls st' = calls st ++ t ∧ paired t ∧
       nodes_expanded st' = Z.of_nat (count_makes t).
Proof.
  rewrite get_best_move_run.
  destruct (get_legal_moves (board st)) as [|first rest].
  - intros [= _ <-]. exists []. rewrite app_nil_r.
    split; [done|]. split; [constructor|done].
  - destruct (root_loop _ _ _ _ _ _) as [[best s2]|] eqn:Hloop; [|done].
    intros [= _ <-]. apply root_loop_counted in Hloop as (t & Ht & Hp & Hn).
    exists t. cbn in Ht, Hn. split; [done|]. split; [done|lia].
Qed.

(** X1.  When [get_best_move] returns, [nodes_expanded] is the number of
    [make_move] calls the run issued on the board, for any collaborator
    and any clock. *)
Theorem nodes_expanded_counts_moves (fuel : nat) (st : State)
    (r : option Move) (st' : State) :
  get_best_move fuel st = Some (r, st') →
  ∃ t, calls st' = calls st ++ t ∧
       nodes_expanded st' = Z.of_nat (count_makes t).
Proof.
  intros (t & Ht & _ & Hn)%get_best_move_counted. by exists t.
Qed.

(** X2.  During a run of [get_best_move], whatever the collaborator does
    with the board, [undo_move] is never called without a move of this
    run still applied: in every prefix of the calls issued, the undos do
    not outnumber the moves made; at the end they are as many. *)
Theorem undo_only_after_make (fuel : nat) (st : State)
    (r : option Move) (st' : State) :
  get_best_move fuel st = Some (r, st') →
  ∃ t, calls st' = calls st ++ t ∧
       count_undos t = count_makes t ∧
       ∀ k, (count_undos (take k t) ≤ count_makes (take k t))%nat.
Proof.
  intros (t & Ht & Hp & _)%get_best_move_counted. exists t.
  split; [done|]. split; [by rewrite (paired_balanced t)|].
  intros k. apply (nested_prefix _ _ (paired_nested _ Hp) k).
Qed.

End CountedCalls.

Section DepthOfNesting.
Context {cfg : Config} {api : BoardAPI}.

Lemma loop_pass_nested (n : nat) (mv : Move) (st s1 s2 : State) :
  (∃ t, calls s2 = calls s1 ++ t ∧ nested n t) →
  calls s1 = calls st ++ [MakeMove mv] →
  ∃ t, calls (set_board (undo_move (board s2)) UndoMove s2) = calls st ++ t ∧
       nested (S n) t.
Proof.
  intros (t & Ht & Hn) Hs1. exists (MakeMove mv :: t ++ [UndoMove]).
  split; [|by apply nested_wrap].
  cbn. rewrite Ht, Hs1, <- !app_assoc. done.
Qed.

Lemma history_trans (n : nat) (s1 s2 s3 : State) :
  (∃ t, calls s2 = calls s1 ++ t ∧ nested n t) →
  (∃ t, calls s3 = calls s2 ++ t ∧ nested n t) →
  ∃ t, calls s3 = calls s1 ++ t ∧ nested n t.
Proof.
  intros (t1 & Ht1 & Hn1) (t2 & Ht2 & Hn2). exists (t1 ++ t2).
  split; [by rewrite Ht2, Ht1, app_assoc|by apply nested_app].
Qed.

Lemma history_none (n : nat) (s s' : State) :
  calls s' = calls s → ∃ t, calls s' = calls s ++ t ∧ nested n t.
Proof. intros ->. exists []. rewrite app_nil_r. split; [done|constructor]. Qed.

Section Loops.
Variable child : Score → Score → M Score.
Variable n : nat.
Hypothesis child_nested : ∀ a b s r s',
  child a b s = Some (r, s') → ∃ t, calls s' = calls s ++ t ∧ nested n t.

Lemma max_loop_nested (moves : list Move) :
  ∀ value alpha beta st r st',
    max_loop child moves value alpha beta st = Some (r, st') →
    ∃ t, calls st' = calls st ++ t ∧ nested (S n) t.
Proof.
  induction moves as [|mv moves IH]; intros value alpha beta st r st' Hrun.
  { injection Hrun as _ <-. by apply history_none. }
  cbn [max_loop] in Hrun. unfold bind at 1 in Hrun.
  rewrite out_of_time_run in Hrun. destruct (out_now st).
  { injection Hrun as _ <-. by apply history_none. }
  unfold bind, board_make_move, count_node, board_undo_move in Hrun.
  match type of Hrun with
  | match child ?a ?b ?s with _ => _ end = _ =>
      destruct (child a b s) as [[c s2]|] eqn:Hchild; [|done]
  end.
  apply child_nested in Hchild.
  apply (loop_pass_nested n mv st) in Hchild; [|done].
  destruct (Score.geb _ _).
  - by injection Hrun as _ <-.
  - apply IH in Hrun. by eapply history_trans.
Qed.

Lemma min_loop_nested (moves : list Move) :
  ∀ value alpha beta st r st',
    min_loop child moves value alpha beta st = Some (r, st') →
    ∃ t, calls st' = calls st ++ t ∧ nested (S n) t.
Proof.
  induction moves as [|mv moves IH]; intros value alpha beta st r st' Hrun.
  { injection Hrun as _ <-. by apply history_none. }
  cbn [min_loop] in Hrun. unfold bind at 1 in Hrun.
  rewrite out_of_time_run in Hrun. destruct (out_now st).
  { injection Hrun as _ <-. by apply history_none. }
  unfold bind, board_make_move, count_node, board_undo_move in Hrun.
  match type of Hrun with
  | match child ?a ?b ?s with _ => _ end = _ =>
      destruct (child a b s) as [[c s2]|] eqn:Hchild; [|done]
  end.
  apply child_nested in Hchild.
  apply (loop_pass_nested n mv st) in Hchild; [|done].
  destruct (Score.geb _ _).
  - by injection Hrun as _ <-.
  - apply IH in Hrun. by eapply history_trans.
Qed.

End Loops.

(** A call of [_alphabeta] with [depth >= 0] never has more than [depth]
    moves applied at once. *)
Lemma alphabeta_nested (fuel : nat) :
  ∀ d alpha beta maximizing st r st',
    0 ≤ d →
    _alphabeta fuel d alpha beta maximizing st = Some (r, st') →
    ∃ t, calls st' = calls st ++ t ∧ nested (Z.to_nat d) t.
Proof.
  induction fuel as [|fuel IH]; intros d alpha beta maximizing st r st' Hd Hrun;
    [done|].
  cbn [_alphabeta] in Hrun. unfold bind at 1 in Hrun.
  rewrite out_of_time_run in Hrun. destruct (out_now st).
  { injection Hrun as _ <-. by apply history_none. }
  unfold bind at 1, read_board at 1 in Hrun.
  destruct (String.eqb _ "checkmate").
  { injection Hrun as _ <-. by apply history_none. }
  destruct (String.eqb _ "stalemate").
  { injection Hrun as _ <-. by apply history_none. }
  cbn [orb] in Hrun. destruct (Z.eqb_spec d 0) as [->|Hne].
  { injection Hrun as _ <-. by apply history_none. }
  unfold bind at 1, read_board at 1 in Hrun.
  destruct (get_legal_moves _) as [|mv moves].
  { injection Hrun as _ <-. by apply history_none. }
  replace (Z.to_nat d) with (S (Z.to_nat (d - 1))) by lia.
  destruct maximizing.
  - apply (max_loop_nested _ (Z.to_nat (d - 1))) in Hrun; [done|].
    intros a b s r' s'. apply IH. lia.
  - apply (min_loop_nested _ (Z.to_nat (d - 1))) in Hrun; [done|].
    intros a b s r' s'. apply IH. lia.
Qed.

Lemma root_loop_nested (fuel : nat) (dz : Z) (moves : list Move) :
  ∀ best_move best_val alpha st r st',
    depth st = dz → 1 ≤ dz →
    root_loop fuel moves best_move best_val alpha st = Some (r, st') →
    ∃ t, calls st' = calls st ++ t ∧ nested (Z.to_nat dz) t.
Proof.
  induction moves as [|mv moves IH];
    intros best_move best_val alpha st r st' Hdz Hd Hrun.
  { injection Hrun as _ <-. by apply history_none. }
  cbn [root_loop] in Hrun. unfold bind at 1 in Hrun.
  rewrite out_of_time_run in Hrun. destruct (out_now st).
  { injection Hrun as _ <-. by apply history_none. }
  unfold bind, board_make_move, count_node, board_undo_move, read_depth,
    note_examined in Hrun.
  cbn [depth set_nodes_expanded set_board tick] in Hrun. rewrite Hdz in Hrun.
  destruct (_alphabeta _ _ _ _ _ _) as [[val s2]|] eqn:Hchild; [|done].
  pose proof (alphabeta_kept _ _ _ _ _ _ _ _ Hchild) as [Kd _ _ _ _ _].
  apply alphabeta_nested in Hchild; [|lia].
  apply (loop_pass_nested _ mv st) in Hchild; [|done].
  replace (S (Z.to_nat (dz - 1))) with (Z.to_nat dz) in Hchild by lia.
  cbn in Kd.
  destruct (Score.ltb best_val val);
    (apply IH in Hrun; [by eapply history_trans|cbn; congruence|done]).
Qed.

(** X3.  With a configured depth of at least one ply, a run of
    [get_best_move] never has more than [depth] moves applied on the
    board at once: in every prefix of the calls it issued, the moves made
    exceed the moves undone by at most [depth]. *)
Theorem applied_moves_bounded_by_depth (fuel : nat) (st : State)
    (r : option Move) (st' : State) :
  1 ≤ depth st →
  get_best_move fuel st = Some (r, st') →
  ∃ t, calls st' = calls st ++ t ∧
       ∀ k, (count_makes (take k t)
             ≤ count_undos (take k t) + Z.to_nat (depth st))%nat.
Proof.
  intros Hd. rewrite get_best_move_run.
  destruct (get_legal_moves (board st)) as [|first rest].
  - intros [= _ <-]. exists []. rewrite app_nil_r. split; [done|].
    intros k. rewrite take_nil. cbn. lia.
  - destruct (root_loop _ _ _ _ _ _) as [[best s2]|] eqn:Hloop; [|done].
    intros [= _ <-].
    apply (root_loop_nested fuel (depth st)) in Hloop as (t & Ht & Hn);
      [|done..].
    exists t. split; [done|]. intros k. apply (nested_prefix _ _ Hn k).
Qed.

End DepthOfNesting.

(** ** Further properties of the evaluator *)

Section EvaluatorReads.
Context {cfg : Config}.

Lemma has_king_true (b : nat → nat → string) (white : bool) :
  _has_king b white = true ↔
  ∃ r c, (r < BOARD_HEIGHT)%nat ∧ (c < BOARD_WIDTH)%nat ∧
         b r c = if white then WHITE_KING else BLACK_KING.
Proof.
  unfold _has_king. rewrite existsb_exists. split.
  - intros (r & Hr%in_seq & (c & Hc%in_seq & Heq%String.eqb_eq)%existsb_exists).
    exists r, c. repeat split; [lia..|done].
  - intros (r & c & Hr & Hc & Heq). exists r. split; [apply in_seq; lia|].
    apply existsb_exists. exists c. split; [apply in_seq; lia|].
    by apply String.eqb_eq.
Qed.

Lemma has_king_ext (b b' : nat → nat → string) (white : bool) :
  (∀ r c, (r < BOARD_HEIGHT)%nat → (c < BOARD_WIDTH)%nat → b r c = b' r c) →
  _has_king b white = _has_king b' white.
Proof.
  intros Hsame. apply eq_iff_eq_true. rewrite !has_king_true.
  split; intros (r & c & Hr & Hc & Heq); exists r, c; repeat split; try done.
  - by rewrite <- Hsame.
  - by rewrite Hsame.
Qed.

(** X4.  [_has_king(white)] is [True] exactly when some cell of the
    [BOARD_HEIGHT] by [BOARD_WIDTH] board holds the king of that colour;
    cells outside the board are not looked at. *)
Theorem has_king_iff_king_on_board (b : nat → nat → string) (white : bool) :
  _has_king b white = true ↔
  ∃ r c, (r < BOARD_HEIGHT)%nat ∧ (c < BOARD_WIDTH)%nat ∧
         b r c = if white then WHITE_KING else BLACK_KING.
Proof. apply has_king_true. Qed.

(** X6.  [evaluate_board] depends on the grid only through the cells of
    the [BOARD_HEIGHT] by [BOARD_WIDTH] board: two grids that agree there
    get the same score, whatever lies outside. *)
Theorem evaluate_reads_board_area (rw wtm chk : bool) (b b' : nat → nat → string) :
  (∀ r c, (r < BOARD_HEIGHT)%nat → (c < BOARD_WIDTH)%nat → b r c = b' r c) →
  evaluate rw wtm chk b = evaluate rw wtm chk b'.
Proof.
  intros Hsame. unfold evaluate, raw_score.
  rewrite !(has_king_ext b b') by done.
  replace (material_pst b) with (material_pst b'); [done|].
  rewrite !material_pst_sum. apply sum_over_ext. intros r Hr%elem_of_seq.
  apply sum_over_ext. intros c Hc%elem_of_seq.
  unfold cell_value, cell_step. rewrite Hsame by lia. done.
Qed.

(** X7.  With both kings on the board and the side to move not in check,
    the score is the sum, over the cells of the board that are not
    [EMPTY_SQUARE], of [PIECE_VALUES.get(p, 0)] plus [_pst_value(p, r, c)]
    for the piece [p] in the cell, negated for a black root: empty cells
    add nothing and no check or king term is applied. *)
Theorem evaluate_quiet_position (rw wtm : bool) (b : nat → nat → string) :
  (∃ r c, (r < BOARD_HEIGHT)%nat ∧ (c < BOARD_WIDTH)%nat ∧ b r c = WHITE_KING) →
  (∃ r c, (r < BOARD_HEIGHT)%nat ∧ (c < BOARD_WIDTH)%nat ∧ b r c = BLACK_KING) →
  evaluate rw wtm false b
  = (if rw then 1 else -1)
    * sum_over
        (λ r, sum_over
                (λ c, if String.eqb (b r c) EMPTY_SQUARE then 0
                      else default 0 (PIECE_VALUES !! b r c)
                           + _pst_value (b r c) r c)
                (seq 0 BOARD_WIDTH))
        (seq 0 BOARD_HEIGHT).
Proof.
  intros Hw%(has_king_true b true) Hb%(has_king_true b false).
  unfold evaluate, raw_score, check_adjust. rewrite Hw, Hb, material_pst_sum.
  cbn [negb].
  assert (∀ r c, cell_value b r c
                 = if String.eqb (b r c) EMPTY_SQUARE then 0
                   else default 0 (PIECE_VALUES !! b r c)
                        + _pst_value (b r c) r c) as Hcell.
  { intros r c. unfold cell_value, cell_step.
    destruct (String.eqb _ _); lia. }
  assert (sum_over (λ r, sum_over (cell_value b r) (seq 0 BOARD_WIDTH))
            (seq 0 BOARD_HEIGHT)
          = sum_over
              (λ r, sum_over
                      (λ c, if String.eqb (b r c) EMPTY_SQUARE then 0
                            else default 0 (PIECE_VALUES !! b r c)
                                 + _pst_value (b r c) r c)
                      (seq 0 BOARD_WIDTH))
              (seq 0 BOARD_HEIGHT)) as ->.
  { apply sum_over_ext. intros r _. apply sum_over_ext. intros c _.
    apply Hcell. }
  destruct rw; lia.
Qed.

End EvaluatorReads.

Section PieceSquare.
Context {cfg : Config}.
Hypothesis names : NoDup identities.

Ltac elem_here :=
  first [ apply list_elem_of_here | apply list_elem_of_further; elem_here ].

Ltac names_clash Heq :=
  let Hnd := fresh "Hnd" in
  pose proof names as Hnd;
  unfold identities in Hnd; rewrite Heq in Hnd;
  repeat (let Hni := fresh "Hni" in apply NoDup_cons in Hnd as [Hni Hnd];
          try (exfalso; apply Hni; elem_here)).

Ltac decide_names :=
  repeat match goal with
         | |- context [String.eqb ?a ?a] => rewrite (String.eqb_refl a)
         | |- context [String.eqb ?a ?b] =>
             let Heq := fresh "Heq" in
             destruct (String.eqb_spec a b) as [Heq|_]; [by names_clash Heq|]
         end.

(** X5.  The positional bonus of a piece of [config] at a cell is minus
    the bonus of the same kind of piece of the other colour at the cell of
    the vertically mirrored rank; the empty square and any name that is
    not a piece of [config] get no bonus. *)
Theorem pst_value_mirrored_for_other_colour (p : string) (r c : nat) :
  (r < BOARD_HEIGHT)%nat →
  (p ∈ identities →
   _pst_value (swap_color p) r c = - _pst_value p (BOARD_HEIGHT - 1 - r)%nat c) ∧
  (p ∉ [WHITE_PAWN; BLACK_PAWN; WHITE_KNIGHT; BLACK_KNIGHT;
        WHITE_BISHOP; BLACK_BISHOP; WHITE_KING; BLACK_KING] →
   _pst_value p r c = 0).
Proof.
  intros Hr. split.
  - intros Hp. unfold identities in Hp.
    repeat (apply elem_of_cons in Hp as [->|Hp]);
      [..|by apply elem_of_nil in Hp];
      unfold swap_color, _pst_value; decide_names;
      replace (BOARD_HEIGHT - 1 - (BOARD_HEIGHT - 1 - r))%nat with r by lia;
      lia.
  - intros Hp. rewrite !not_elem_of_cons in Hp.
    destruct Hp as (N1 & N2 & N3 & N4 & N5 & N6 & N7 & N8 & _).
    unfold _pst_value.
    repeat match goal with
           | |- context [String.eqb ?a ?b] =>
               destruct (String.eqb_spec a b); [done|]
           end.
    done.
Qed.

End PieceSquare.

(** ** Further properties of the search *)

Section SearchValues.
Context {cfg : Config} {api : BoardAPI} `{!BoardLaws api}.

Lemma calm_tick (st : State) : calm st → calm (tick st).
Proof. intros Hcalm k Hk. apply Hcalm. cbn in Hk. lia. Qed.

(** X9.  With no clock reading reaching the budget, a call of
    [_alphabeta] with [depth >= 0] and a window [alpha < beta] returns a
    value that is the minimax value of the node when it lies strictly
    inside the window, an upper bound of it when it is at or below
    [alpha], and a lower bound of it when it is at or above [beta]; the
    board is given back unchanged. *)
Theorem alphabeta_fail_soft (fuel : nat) (d : Z) (alpha beta : Score)
    (maximizing : bool) (st : State) :
  0 ≤ d → (Z.to_nat d < fuel)%nat → Score.lt alpha beta → calm st →
  ∃ r st', _alphabeta fuel d alpha beta maximizing st = Some (r, st') ∧
           board st' = board st ∧
           bracket alpha beta r
             (minimax (root_is_white st) (Z.to_nat d) maximizing (board st)).
Proof.
  intros Hd Hfuel Hlt Hcalm.
  destruct (alphabeta_total fuel d alpha beta maximizing st Hd Hfuel)
    as [[r st'] Hrun].
  exists r, st'. split; [done|]. split.
  - by apply alphabeta_restored in Hrun as [? _].
  - by eapply alphabeta_bracket.
Qed.

Lemma full_window_exact (r v : Score) :
  Score.is_fin v → bracket NegInf PosInf r v → r = v.
Proof.
  intros Hfin (Hlo & Hhi & Hmid). destruct v as [|z|]; try done.
  destruct r as [|y|].
  - by specialize (Hlo eq_refl).
  - by apply Hmid.
  - by specialize (Hhi eq_refl).
Qed.

(** X8.  With no clock reading reaching the budget, [_alphabeta] called
    with the full window [(-math.inf, math.inf)] and [depth >= 0] returns
    exactly the unpruned minimax value of the node, a finite score. *)
Theorem alphabeta_full_window_is_minimax (fuel : nat) (d : Z)
    (maximizing : bool) (st : State) :
  0 ≤ d → (Z.to_nat d < fuel)%nat → calm st →
  ∃ z st', _alphabeta fuel d NegInf PosInf maximizing st = Some (Fin z, st') ∧
           minimax (root_is_white st) (Z.to_nat d) maximizing (board st) = Fin z.
Proof.
  intros Hd Hfuel Hcalm.
  destruct (alphabeta_total fuel d NegInf PosInf maximizing st Hd Hfuel)
    as [[r st'] Hrun].
  assert (Score.lt NegInf PosInf) as Hwin by done.
  pose proof (alphabeta_bracket _ _ _ _ _ _ _ _ Hd Hwin Hcalm Hrun) as Hbr.
  pose proof (minimax_fin (root_is_white st) (Z.to_nat d) maximizing (board st))
    as Hfin.
  apply full_window_exact in Hbr; [|done]. subst r.
  destruct (minimax _ _ _ _) as [|z|] eqn:Hv; try done.
  by exists z, st'.
Qed.

(** The move [best_of] picks has a value no other entry exceeds. *)
Lemma best_of_greatest (l : list (Move * Score)) (m : Move) :
  best_of l = Some m →
  ∃ v, (m, v) ∈ l ∧ ∀ p, p ∈ l → Score.le (snd p) v.
Proof.
  unfold best_of. destruct (List.find _ l) as [[m' v]|] eqn:Hfind; [|done].
  intros [= <-]. apply find_some in Hfind as [Hin Hge].
  exists v. split; [by apply list_elem_of_In|].
  intros p Hp%best_value_ge. cbn in Hge. unfold Score.geb in Hge.
  apply negb_true_iff in Hge.
  change (ScoreOrder.le (best_value l) v) in Hge.
  change (ScoreOrder.le (snd p) (best_value l)) in Hp.
  change (ScoreOrder.le (snd p) v). ScoreFacts.order.
Qed.

(** With no time pressure the root loop selects the minimax choice. *)
Lemma root_choice_is_minimax (fuel : nat) (st : State) :
  1 ≤ depth st → (Z.to_nat (depth st) ≤ fuel)%nat →
  get_legal_moves (board st) ≠ [] →
  no_time_pressure st →
  ∃ best st', get_best_move fuel st = Some (Some best, st') ∧
              best_of (root_values (Z.to_nat (depth st)) (board st)) = Some best.
Proof.
  intros Hd Hfuel Hne Hcalm.
  destruct (get_best_move_total fuel st Hd Hfuel) as [[r st'] Hrun].
  rewrite Hrun. rewrite get_best_move_run in Hrun.
  destruct (get_legal_moves (board st)) as [|first rest] eqn:Hmoves; [done|].
  destruct (root_loop _ _ _ _ _ _) as [[best s2]|] eqn:Hloop; [|done].
  injection Hrun as <- <-. exists best, s2. split; [done|].
  pose proof (root_loop_minimax fuel (board st) (white_to_move (board st))
                (depth st) (first :: rest) [] first NegInf NegInf (started st)
                best s2) as Hbest.
  change ([] ++ first :: rest) with (first :: rest) in Hbest.
  unfold root_values. rewrite Hmoves.
  replace (Z.to_nat (depth st) - 1)%nat with (Z.to_nat (depth st - 1)) by lia.
  assert (calm (started st)) as Hstart.
  { intros k Hk. apply (Hcalm k). cbn in Hk. lia. }
  specialize (Hbest eq_refl eq_refl eq_refl Hd Hstart).
  cbv zeta iota in Hbest. apply Hbest; try done.
  - intros mv Hmv. by rewrite Hmoves.
  - by intros m [= ->].
Qed.

(** X11.  With no clock reading reaching the budget and a depth of at
    least one ply, the move [get_best_move] returns is a legal move whose
    reply position has the greatest minimax value (depth [depth - 1],
    opponent to minimize) among all legal root moves. *)
Theorem best_move_maximizes_minimax (fuel : nat) (st : State) :
  1 ≤ depth st → (Z.to_nat (depth st) ≤ fuel)%nat →
  get_legal_moves (board st) ≠ [] →
  no_time_pressure st →
  ∃ best st',
    get_best_move fuel st = Some (Some best, st') ∧
    best ∈ get_legal_moves (board st) ∧
    ∀ mv, mv ∈ get_legal_moves (board st) →
      Score.le
        (minimax (white_to_move (board st)) (Z.to_nat (depth st - 1)) false
           (make_move mv (board st)))
        (minimax (white_to_move (board st)) (Z.to_nat (depth st - 1)) false
           (make_move best (board st))).
Proof.
  intros Hd Hfuel Hne Hcalm.
  destruct (root_choice_is_minimax fuel st Hd Hfuel Hne Hcalm)
    as (best & st' & Hrun & Hbest).
  exists best, st'. split; [done|].
  apply best_of_greatest in Hbest as (v & Hin & Hmax).
  unfold root_values in Hin, Hmax.
  replace (Z.to_nat (depth st) - 1)%nat with (Z.to_nat (depth st - 1))
    in Hin, Hmax by lia.
  apply list_elem_of_fmap in Hin as (m & [= -> ->] & Hm). split; [done|].
  intros mv Hmv.
  apply (Hmax (mv, minimax (white_to_move (board st))
                     (Z.to_nat (depth st - 1)) false (make_move mv (board st)))).
  apply list_elem_of_fmap. by exists mv.
Qed.

(** X12.  With no clock reading reaching the budget and a depth of at
    least one ply, if some legal move leaves the opponent to move in a
    position classified as checkmate, the move [get_best_move] returns
    has a minimax value of at least the mate score 1,000,000. *)
Theorem mating_move_sets_the_bar (fuel : nat) (st : State) (mate : Move) :
  1 ≤ depth st → (Z.to_nat (depth st) ≤ fuel)%nat →
  no_time_pressure st →
  mate ∈ get_legal_moves (board st) →
  get_game_state (make_move mate (board st)) = "checkmate"%string →
  white_to_move (make_move mate (board st)) = negb (white_to_move (board st)) →
  ∃ best st',
    get_best_move fuel st = Some (Some best, st') ∧
    best ∈ get_legal_moves (board st) ∧
    Score.le (Fin 1000000)
      (minimax (white_to_move (board st)) (Z.to_nat (depth st - 1)) false
         (make_move best (board st))).
Proof.
  intros Hd Hfuel Hcalm Hmate Hstate Hturn.
  assert (get_legal_moves (board st) ≠ []) as Hne
    by (intros Hnil; rewrite Hnil in Hmate; by apply elem_of_nil in Hmate).
  destruct (root_choice_is_minimax fuel st Hd Hfuel Hne Hcalm)
    as (best & st' & Hrun & Hbest).
  exists best, st'. split; [done|].
  apply best_of_greatest in Hbest as (v & Hin & Hmax).
  unfold root_values in Hin, Hmax.
  replace (Z.to_nat (depth st) - 1)%nat with (Z.to_nat (depth st - 1))
    in Hin, Hmax by lia.
  apply list_elem_of_fmap in Hin as (m & [= -> ->] & Hm). split; [done|].
  assert (minimax (white_to_move (board st)) (Z.to_nat (depth st - 1)) false
            (make_move mate (board st)) = Fin 1000000) as Hvalue.
  { rewrite minimax_unfold, Hstate, Hturn. cbn [String.eqb Ascii.eqb Bool.eqb].
    by destruct (white_to_move (board st)). }
  rewrite <- Hvalue.
  apply (Hmax (mate, minimax (white_to_move (board st))
                 (Z.to_nat (depth st - 1)) false (make_move mate (board st)))).
  apply list_elem_of_fmap. by exists mate.
Qed.

End SearchValues.

Section RootLoopFacts.
Context {cfg : Config} {api : BoardAPI}.

(** X10.  On a position with exactly one legal move, [get_best_move]
    returns that move, whatever its value and whatever the clock: the run
    returns once [fuel] covers a depth of at least one ply, and no run
    returns anything else. *)
Theorem only_legal_move_is_returned (fuel : nat) (st : State) (only : Move) :
  get_legal_moves (board st) = [only] →
  (1 ≤ depth st → (Z.to_nat (depth st) ≤ fuel)%nat →
   ∃ st', get_best_move fuel st = Some (Some only, st')) ∧
  (∀ r st', get_best_move fuel st = Some (r, st') → r = Some only).
Proof.
  intros Hmoves.
  assert (∀ r st', get_best_move fuel st = Some (r, st') → r = Some only)
    as Honly.
  { intros r st'. rewrite get_best_move_run, Hmoves.
    destruct (root_loop _ _ _ _ _ _) as [[best s2]|] eqn:Hloop; [|done].
    intros [= <- _]. f_equal.
    apply root_loop_member in Hloop as [->|Hin]; [done|].
    by apply list_elem_of_singleton in Hin. }
  split; [|exact Honly].
  intros Hd Hfuel.
  destruct (get_best_move_total fuel st Hd Hfuel) as [[r st'] Hrun].
  exists st'. by rewrite <- (Honly r st' Hrun).
Qed.

(** X13.  A run of [get_best_move] leaves the configuration ([depth] and
    [time_budget]) as it was, takes the side to move at entry as root
    side and the first clock reading of the call as [start_time], and
    reads the clock at least once. *)
Theorem get_best_move_keeps_configuration (fuel : nat) (st : State)
    (r : option Move) (st' : State) :
  get_best_move fuel st = Some (r, st') →
  depth st' = depth st ∧ time_budget st' = time_budget st ∧
  root_is_white st' = white_to_move (board st) ∧
  start_time st' = readings st (clock st) ∧
  (clock st < clock st')%nat.
Proof.
  rewrite get_best_move_run.
  destruct (get_legal_moves (board st)) as [|first rest].
  - intros [= _ <-]. cbn. repeat split; try lia.
  - destruct (root_loop _ _ _ _ _ _) as [[best s2]|] eqn:Hloop; [|done].
    intros [= _ <-]. apply root_loop_kept in Hloop as [Hd Hb Hs Hr _ Hc].
    cbn in *. repeat split; try done; try lia.
Qed.

Lemma root_loop_examines_all (fuel : nat) (moves : list Move) :
  ∀ best_move best_val alpha st r st',
    calm st →
    root_loop fuel moves best_move best_val alpha st = Some (r, st') →
    fst <$> examined st' = (fst <$> examined st) ++ moves.
Proof.
  induction moves as [|mv moves IH];
    intros best_move best_val alpha st r st' Hcalm Hrun.
  { injection Hrun as _ <-. by rewrite app_nil_r. }
  cbn [root_loop] in Hrun. unfold bind at 1 in Hrun.
  rewrite out_of_time_run in Hrun.
  assert (out_now st = false) as Hout.
  { unfold out_now. apply Z.leb_gt. by apply Hcalm. }
  rewrite Hout in Hrun.
  unfold bind, board_make_move, count_node, board_undo_move, read_depth,
    note_examined in Hrun.
  destruct (_alphabeta _ _ _ _ _ _) as [[val s2]|] eqn:Hchild; [|done].
  pose proof (alphabeta_kept _ _ _ _ _ _ _ _ Hchild) as [_ Kb Ks _ Kr Kc].
  apply alphabeta_examined in Hchild. cbn in Hchild, Kb, Ks, Kr, Kc.
  cbn [examined set_board] in Hrun. rewrite Hchild in Hrun.
  assert (∀ l, calm (set_examined l (set_board (undo_move (board s2)) UndoMove s2)))
    as Hcalm'.
  { intros l k Hk. cbn in *. rewrite Kb, Ks, Kr. apply Hcalm. lia. }
  destruct (Score.ltb best_val val);
    (apply IH in Hrun; [|apply Hcalm']);
    rewrite Hrun; cbn [examined set_examined];
    by rewrite fmap_app, <- app_assoc.
Qed.

(** X14.  With no clock reading reaching the budget, the root loop
    searches every legal move, in the order of [get_legal_moves()]: the
    root never prunes. *)
Theorem root_searches_every_move (fuel : nat) (st : State)
    (r : option Move) (st' : State) :
  no_time_pressure st →
  get_best_move fuel st = Some (r, st') →
  fst <$> examined st' = get_legal_moves (board st).
Proof.
  intros Hcalm. rewrite get_best_move_run.
  destruct (get_legal_moves (board st)) as [|first rest].
  - by intros [= _ <-].
  - destruct (root_loop _ _ _ _ _ _) as [[best s2]|] eqn:Hloop; [|done].
    intros [= _ <-]. apply root_loop_examines_all in Hloop; [done|].
    intros k Hk. apply (Hcalm k). cbn in Hk. lia.
Qed.

End RootLoopFacts.

(** ** The further properties on explicit game trees *)

Section MoreOnGameTrees.
Import GameTree.
#[local] Existing Instance GameTree.api.
#[local] Existing Instance GameTree.cfg.

Lemma relaxed_calm : calm relaxed.
Proof. intros k _. by vm_compute. Qed.

Lemma relaxed_no_time_pressure : no_time_pressure relaxed.
Proof. intros k _. by vm_compute. Qed.

(** Witness of X1. *)
Lemma nodes_expanded_counts_moves_witness :
  ∃ r st', get_best_move 3 (hurried 5) = Some (r, st') ∧
    ∃ t, calls st' = calls (hurried 5) ++ t ∧
         nodes_expanded st' = Z.of_nat (count_makes t).
Proof.
  destruct (get_best_move_total 3 (hurried 5)) as [[r st'] Hrun]; [cbn; lia..|].
  exists r, st'. split; [exact Hrun|].
  exact (nodes_expanded_counts_moves 3 (hurried 5) r st' Hrun).
Defined.

(** Witness of X2. *)
Lemma undo_only_after_make_witness :
  ∃ r st', get_best_move 3 (hurried 5) = Some (r, st') ∧
    ∃ t, calls st' = calls (hurried 5) ++ t ∧
         count_undos t = count_makes t ∧
         ∀ k, (count_undos (take k t) ≤ count_makes (take k t))%nat.
Proof.
  destruct (get_best_move_total 3 (hurried 5)) as [[r st'] Hrun]; [cbn; lia..|].
  exists r, st'. split; [exact Hrun|].
  exact (undo_only_after_make 3 (hurried 5) r st' Hrun).
Defined.

(** Witness of X3. *)
Lemma applied_moves_bounded_by_depth_witness :
  1 ≤ depth (hurried 5) ∧
  ∃ r st', get_best_move 3 (hurried 5) = Some (r, st') ∧
    ∃ t, calls st' = calls (hurried 5) ++ t ∧
         ∀ k, (count_makes (take k t) ≤ count_undos (take k t) + 3)%nat.
Proof.
  assert (1 ≤ depth (hurried 5)) as Hd by (cbn; lia). split; [exact Hd|].
  destruct (get_best_move_total 3 (hurried 5)) as [[r st'] Hrun]; [cbn; lia..|].
  exists r, st'. split; [exact Hrun|].
  exact (applied_moves_bounded_by_depth 3 (hurried 5) r st' Hd Hrun).
Defined.

(** Witness of X5: the black pawn on the second rank from the top. *)
Lemma pst_value_mirrored_for_other_colour_witness :
  _pst_value (swap_color "bP") 1 2 = - _pst_value "bP" (8 - 1 - 1) 2.
Proof.
  refine (proj1 (pst_value_mirrored_for_other_colour sample_names_distinct
                   "bP"%string 1 2 _) _).
  - cbn. lia.
  - apply (bool_decide_unpack _). by vm_compute.
Defined.

Lemma padded_agrees (r c : nat) :
  (r < BOARD_HEIGHT)%nat → (c < BOARD_WIDTH)%nat →
  cell kings_pawn r c = padded r c.
Proof.
  intros Hr Hc. unfold padded. cbn in Hr, Hc.
  destruct (Nat.ltb_spec r 8); [|lia]. destruct (Nat.ltb_spec c 4); [|lia].
  done.
Qed.

(** Witness of X6. *)
Lemma evaluate_reads_board_area_witness :
  evaluate true true false (cell kings_pawn) = evaluate true true false padded.
Proof.
  exact (evaluate_reads_board_area true true false (cell kings_pawn) padded
           padded_agrees).
Defined.

(** Witness of X7. *)
Lemma evaluate_quiet_position_witness :
  evaluate false true false (cell kings_pawn)
  = -1 * sum_over
           (λ r, sum_over
                   (λ c, if String.eqb (cell kings_pawn r c) EMPTY_SQUARE then 0
                         else default 0 (PIECE_VALUES !! cell kings_pawn r c)
                              + _pst_value (cell kings_pawn r c) r c)
                   (seq 0 BOARD_WIDTH))
           (seq 0 BOARD_HEIGHT).
Proof.
  apply (evaluate_quiet_position false true (cell kings_pawn)).
  - exists 0%nat, 1%nat. repeat split; cbn; lia.
  - exists 7%nat, 1%nat. repeat split; cbn; lia.
Defined.

(** Witness of X9: a window from 0 to 10 on the sample position. *)
Lemma alphabeta_fail_soft_witness :
  ∃ r st', _alphabeta 3 2 (Fin 0) (Fin 10) true relaxed = Some (r, st') ∧
           board st' = board relaxed ∧
           bracket (Fin 0) (Fin 10) r
             (minimax (root_is_white relaxed) 2 true (board relaxed)).
Proof.
  apply (alphabeta_fail_soft (BoardLaws0 := game_tree_laws) 3 2 (Fin 0) (Fin 10)
           true relaxed).
  - lia.
  - cbn. lia.
  - reflexivity.
  - exact relaxed_calm.
Defined.

(** Witness of X8. *)
Lemma alphabeta_full_window_is_minimax_witness :
  ∃ z st', _alphabeta 3 2 NegInf PosInf true relaxed = Some (Fin z, st') ∧
           minimax (root_is_white relaxed) 2 true (board relaxed) = Fin z.
Proof.
  apply (alphabeta_full_window_is_minimax (BoardLaws0 := game_tree_laws) 3 2
           true relaxed).
  - lia.
  - cbn. lia.
  - exact relaxed_calm.
Defined.

(** Witness of X10. *)
Lemma only_legal_move_is_returned_witness :
  get_legal_moves (board forced) = [0%nat] ∧
  ∃ st', get_best_move 3 forced = Some (Some 0%nat, st').
Proof.
  split; [reflexivity|].
  apply (only_legal_move_is_returned 3 forced 0%nat eq_refl); cbn; lia.
Defined.

(** Witness of X11. *)
Lemma best_move_maximizes_minimax_witness :
  ∃ best st',
    get_best_move 3 relaxed = Some (Some best, st') ∧
    best ∈ get_legal_moves (board relaxed) ∧
    ∀ mv, mv ∈ get_legal_moves (board relaxed) →
      Score.le
        (minimax (white_to_move (board relaxed)) (Z.to_nat (depth relaxed - 1))
           false (make_move mv (board relaxed)))
        (minimax (white_to_move (board relaxed)) (Z.to_nat (depth relaxed - 1))
           false (make_move best (board relaxed))).
Proof.
  apply (best_move_maximizes_minimax (BoardLaws0 := game_tree_laws) 3 relaxed).
  - by vm_compute.
  - cbn. lia.
  - by vm_compute.
  - exact relaxed_no_time_pressure.
Defined.

(** Witness of X12: the third move of the sample position mates. *)
Lemma mating_move_sets_the_bar_witness :
  ∃ best st',
    get_best_move 3 relaxed = Some (Some best, st') ∧
    best ∈ get_legal_moves (board relaxed) ∧
    Score.le (Fin 1000000)
      (minimax (white_to_move (board relaxed)) (Z.to_nat (depth relaxed - 1))
         false (make_move best (board relaxed))).
Proof.
  apply (mating_move_sets_the_bar (BoardLaws0 := game_tree_laws) 3 relaxed 2%nat).
  - by vm_compute.
  - cbn. lia.
  - exact relaxed_no_time_pressure.
  - apply (bool_decide_unpack _). by vm_compute.
  - reflexivity.
  - reflexivity.
Defined.

(** Witness of X13. *)
Lemma get_best_move_keeps_configuration_witness :
  ∃ r st', get_best_move 3 (hurried 5) = Some (r, st') ∧
    depth st' = 3 ∧ time_budget st' = 5 ∧ root_is_white st' = true ∧
    start_time st' = 0 ∧ (0 < clock st')%nat.
Proof.
  destruct (get_best_move_total 3 (hurried 5)) as [[r st'] Hrun]; [cbn; lia..|].
  exists r, st'. split; [exact Hrun|].
  exact (get_best_move_keeps_configuration 3 (hurried 5) r st' Hrun).
Defined.

(** Witness of X14. *)
Lemma root_searches_every_move_witness :
  ∃ r st', get_best_move 3 relaxed = Some (r, st') ∧
           fst <$> examined st' = [0; 1; 2]%nat.
Proof.
  destruct (get_best_move_total 3 relaxed) as [[r st'] Hrun]; [cbn; lia..|].
  exists r, st'. split; [exact Hrun|].
  exact (root_searches_every_move 3 relaxed r st' relaxed_no_time_pressure Hrun).
Defined.

End MoreOnGameTrees.

(** ** Work and tie-breaking *)

Section SearchWork.
Context {cfg : Config} {api : BoardAPI} `{!BoardLaws api}.

Lemma tree_moves_unfold (d : nat) (b : Board) :
  tree_moves d b =
  if String.eqb (get_game_state b) "checkmate" then 0%nat
  else if String.eqb (get_game_state b) "stalemate" then 0%nat
  else
    match d with
    | O => 0%nat
    | S d' =>
        foldr (λ mv acc, (S (tree_moves d' (make_move mv b)) + acc)%nat) 0%nat
              (get_legal_moves b)
    end.
Proof. by destruct d. Qed.

Section Loops.
Variable child : Score → Score → M Score.
Variable b0 : Board.
Variable work : Board → nat.
Hypothesis child_restores : ∀ a b s r s',
  child a b s = Some (r, s') → restored s s'.
Hypothesis child_work : ∀ a b s r s',
  child a b s = Some (r, s') →
  nodes_expanded s' ≤ nodes_expanded s + Z.of_nat (work (board s)).

Lemma max_loop_work (moves : list Move) :
  ∀ value alpha beta st r st',
    board st = b0 →
    (∀ mv, mv ∈ moves → mv ∈ get_legal_moves b0) →
    max_loop child moves value alpha beta st = Some (r, st') →
    nodes_expanded st'
    ≤ nodes_expanded st
      + Z.of_nat (foldr (λ mv acc, (S (work (make_move mv b0)) + acc)%nat)
                        0%nat moves).
Proof.
  induction moves as [|mv moves IH]; intros value alpha beta st r st' Hb Hin Hrun.
  { injection Hrun as _ <-. cbn [nodes_expanded tick foldr]. lia. }
  cbn [max_loop] in Hrun. unfold bind at 1 in Hrun.
  rewrite out_of_time_run in Hrun. destruct (out_now st).
  { injection Hrun as _ <-. cbn [nodes_expanded tick foldr]. lia. }
  unfold bind, board_make_move, count_node, board_undo_move in Hrun.
  match type of Hrun with
  | match child ?a ?b ?s with _ => _ end = _ =>
      destruct (child a b s) as [[c s2]|] eqn:Hchild; [|done]
  end.
  pose proof (child_work _ _ _ _ _ Hchild) as Hwork.
  apply child_restores in Hchild.
  apply (restored_round_trip (tick st) mv s2) in Hchild as [Hb3 _];
    [|cbn; rewrite Hb; apply Hin; left].
  cbn [nodes_expanded board set_nodes_expanded set_board tick] in Hwork, Hb3.
  rewrite Hb in Hwork. cbn [foldr].
  destruct (Score.geb _ _).
  - injection Hrun as _ <-. cbn [nodes_expanded set_board]. lia.
  - apply IH in Hrun.
    + cbn [nodes_expanded set_board] in Hrun. lia.
    + cbn. congruence.
    + intros mv' Hmv'. apply Hin. by right.
Qed.

Lemma min_loop_work (moves : list Move) :
  ∀ value alpha beta st r st',
    board st = b0 →
    (∀ mv, mv ∈ moves → mv ∈ get_legal_moves b0) →
    min_loop child moves value alpha beta st = Some (r, st') →
    nodes_expanded st'
    ≤ nodes_expanded st
      + Z.of_nat (foldr (λ mv acc, (S (work (make_move mv b0)) + acc)%nat)
                        0%nat moves).
Proof.
  induction moves as [|mv moves IH]; intros value alpha beta st r st' Hb Hin Hrun.
  { injection Hrun as _ <-. cbn [nodes_expanded tick foldr]. lia. }
  cbn [min_loop] in Hrun. unfold bind at 1 in Hrun.
  rewrite out_of_time_run in Hrun. destruct (out_now st).
  { injection Hrun as _ <-. cbn [nodes_expanded tick foldr]. lia. }
  unfold bind, board_make_move, count_node, board_undo_move in Hrun.
  match type of Hrun with
  | match child ?a ?b ?s with _ => _ end = _ =>
      destruct (child a b s) as [[c s2]|] eqn:Hchild; [|done]
  end.
  pose proof (child_work _ _ _ _ _ Hchild) as Hwork.
  apply child_restores in Hchild.
  apply (restored_round_trip (tick st) mv s2) in Hchild as [Hb3 _];
    [|cbn; rewrite Hb; apply Hin; left].
  cbn [nodes_expanded board set_nodes_expanded set_board tick] in Hwork, Hb3.
  rewrite Hb in Hwork. cbn [foldr].
  destruct (Score.geb _ _).
  - injection Hrun as _ <-. cbn [nodes_expanded set_board]. lia.
  - apply IH in Hrun.
    + cbn [nodes_expanded set_board] in Hrun. lia.
    + cbn. congruence.
    + intros mv' Hmv'. apply Hin. by right.
Qed.

End Loops.

Lemma alphabeta_work (fuel : nat) :
  ∀ d alpha beta maximizing st r st',
    0 ≤ d →
    _alphabeta fuel d alpha beta maximizing st = Some (r, st') →
    nodes_expanded st'
    ≤ nodes_expanded st + Z.of_nat (tree_moves (Z.to_nat d) (board st)).
Proof.
  induction fuel as [|fuel IH]; intros d alpha beta maximizing st r st' Hd Hrun;
    [done|].
  cbn [_alphabeta] in Hrun. unfold bind at 1 in Hrun.
  rewrite out_of_time_run in Hrun. destruct (out_now st).
  { injection Hrun as _ <-. cbn [nodes_expanded tick foldr]. lia. }
  unfold bind at 1, read_board at 1 in Hrun. cbn [board tick] in Hrun.
  rewrite tree_moves_unfold.
  destruct (String.eqb _ "checkmate").
  { injection Hrun as _ <-. cbn [nodes_expanded tick foldr]. lia. }
  destruct (String.eqb _ "stalemate").
  { injection Hrun as _ <-. cbn [nodes_expanded tick foldr]. lia. }
  cbn [orb] in Hrun. destruct (Z.eqb_spec d 0) as [->|Hne].
  { injection Hrun as _ <-. cbn [nodes_expanded tick foldr]. lia. }
  replace (Z.to_nat d) with (S (Z.to_nat (d - 1))) by lia.
  unfold bind at 1, read_board at 1 in Hrun. cbn [board tick] in Hrun.
  destruct (get_legal_moves (board st)) as [|mv moves] eqn:Hmoves.
  { injection Hrun as _ <-. cbn [nodes_expanded tick foldr]. lia. }
  destruct maximizing.
  - apply (max_loop_work _ (board st) (tree_moves (Z.to_nat (d - 1)))) in Hrun.
    + exact Hrun.
    + intros a b s r' s'. apply alphabeta_restored.
    + intros a b s r' s'. apply IH. lia.
    + done.
    + by rewrite Hmoves.
  - apply (min_loop_work _ (board st) (tree_moves (Z.to_nat (d - 1)))) in Hrun.
    + exact Hrun.
    + intros a b s r' s'. apply alphabeta_restored.
    + intros a b s r' s'. apply IH. lia.
    + done.
    + by rewrite Hmoves.
Qed.

Lemma root_loop_work (fuel : nat) (b0 : Board) (dz : Z) (moves : list Move) :
  ∀ best_move best_val alpha st r st',
    board st = b0 → depth st = dz → 1 ≤ dz →
    (∀ mv, mv ∈ moves → mv ∈ get_legal_moves b0) →
    root_loop fuel moves best_move best_val alpha st = Some (r, st') →
    nodes_expanded st'
    ≤ nodes_expanded st
      + Z.of_nat (foldr (λ mv acc,
                    (S (tree_moves (Z.to_nat dz - 1) (make_move mv b0)) + acc)%nat)
                    0%nat moves).
Proof.
  induction moves as [|mv moves IH];
    intros best_move best_val alpha st r st' Hb Hdz Hd Hin Hrun.
  { injection Hrun as _ <-. cbn [nodes_expanded tick foldr]. lia. }
  cbn [root_loop] in Hrun. unfold bind at 1 in Hrun.
  rewrite out_of_time_run in Hrun. destruct (out_now st).
  { injection Hrun as _ <-. cbn [nodes_expanded tick foldr]. lia. }
  unfold bind, board_make_move, count_node, board_undo_move, read_depth,
    note_examined in Hrun.
  cbn [depth set_nodes_expanded set_board tick] in Hrun. rewrite Hdz in Hrun.
  destruct (_alphabeta _ _ _ _ _ _) as [[val s2]|] eqn:Hchild; [|done].
  pose proof (alphabeta_kept _ _ _ _ _ _ _ _ Hchild) as [Kd _ _ _ _ _].
  assert (0 ≤ dz - 1) as Hd1 by lia.
  pose proof (alphabeta_work _ _ _ _ _ _ _ _ Hd1 Hchild) as Hwork.
  apply alphabeta_restored in Hchild.
  apply (restored_round_trip (tick st) mv s2) in Hchild as [Hb3 _];
    [|cbn; rewrite Hb; apply Hin; left].
  cbn [nodes_expanded board depth set_nodes_expanded set_board tick]
    in Hwork, Hb3, Kd.
  rewrite Hb in Hwork.
  replace (Z.to_nat (dz - 1)) with (Z.to_nat dz - 1)%nat in Hwork by lia.
  cbn [foldr].
  destruct (Score.ltb best_val val);
    (apply IH in Hrun;
     [cbn [nodes_expanded set_examined set_board] in Hrun; lia
     | cbn; congruence | cbn; congruence | done
     | intros mv' Hmv'; apply Hin; by right]).
Qed.

(** X16.  For every clock, a run of [get_best_move] with a depth of at
    least one ply applies at most as many moves as the game tree of that
    depth holds: [nodes_expanded] never exceeds the work of the unpruned
    search, whether the run was pruned, cut short by the deadline or
    neither. *)
Theorem nodes_expanded_at_most_full_tree (fuel : nat) (st : State)
    (r : option Move) (st' : State) :
  1 ≤ depth st →
  get_best_move fuel st = Some (r, st') →
  nodes_expanded st'
  ≤ Z.of_nat (root_tree_moves (Z.to_nat (depth st)) (board st)).
Proof.
  intros Hd. rewrite get_best_move_run. unfold root_tree_moves.
  destruct (get_legal_moves (board st)) as [|first rest] eqn:Hmoves.
  - intros [= _ <-]. cbn [foldr nodes_expanded started set_examined set_root set_nodes_expanded]. lia.
  - destruct (root_loop _ _ _ _ _ _) as [[best s2]|] eqn:Hloop; [|done].
    intros [= _ <-].
    apply (root_loop_work fuel (board st) (depth st)) in Hloop; try done.
    intros mv Hmv. by rewrite Hmoves.
Qed.

End SearchWork.

Section TieBreaking.
Context {cfg : Config} {api : BoardAPI} `{!BoardLaws api}.

Lemma find_first {A : Type} (f : A → bool) (l : list A) (x : A) :
  List.find f l = Some x →
  ∃ i, l !! i = Some x ∧ f x = true ∧
       ∀ j y, (j < i)%nat → l !! j = Some y → f y = false.
Proof.
  induction l as [|a l IH]; [done|]. cbn. destruct (f a) eqn:Hfa.
  - intros [= ->]. exists 0%nat. repeat split; [done|]. intros j y Hj. lia.
  - intros (i & Hi & Hfx & Hbefore)%IH. exists (S i). repeat split; [done..|].
    intros [|j] y Hj; cbn; [by intros [= <-]|]. apply Hbefore. lia.
Qed.

(** X15.  With no clock reading reaching the budget and a depth of at
    least one ply, ties go to the earliest move: every legal move listed
    before the one [get_best_move] returns has a strictly smaller minimax
    value. *)
Theorem earlier_moves_are_strictly_worse (fuel : nat) (st : State) :
  1 ≤ depth st → (Z.to_nat (depth st) ≤ fuel)%nat →
  get_legal_moves (board st) ≠ [] →
  no_time_pressure st →
  ∃ best st' i,
    get_best_move fuel st = Some (Some best, st') ∧
    get_legal_moves (board st) !! i = Some best ∧
    ∀ j mv, (j < i)%nat → get_legal_moves (board st) !! j = Some mv →
      Score.lt
        (minimax (white_to_move (board st)) (Z.to_nat (depth st - 1)) false
           (make_move mv (board st)))
        (minimax (white_to_move (board st)) (Z.to_nat (depth st - 1)) false
           (make_move best (board st))).
Proof.
  intros Hd Hfuel Hne Hcalm.
  destruct (root_choice_is_minimax fuel st Hd Hfuel Hne Hcalm)
    as (best & st' & Hrun & Hbest).
  unfold best_of, root_values in Hbest.
  replace (Z.to_nat (depth st) - 1)%nat with (Z.to_nat (depth st - 1))
    in Hbest by lia.
  destruct (List.find _ _) as [[m v]|] eqn:Hfind; [|done].
  injection Hbest as ->.
  apply find_first in Hfind as (i & Hi & Hge & Hbefore).
  rewrite list_lookup_fmap in Hi.
  destruct (get_legal_moves (board st) !! i) as [m|] eqn:Hm; [|done].
  injection Hi as -> <-. exists best, st', i. repeat split; [done..|].
  intros j mv Hj Hmv.
  specialize (Hbefore j (mv, minimax (white_to_move (board st))
                               (Z.to_nat (depth st - 1)) false
                               (make_move mv (board st))) Hj).
  rewrite list_lookup_fmap, Hmv in Hbefore. specialize (Hbefore eq_refl).
  cbn [snd] in Hbefore, Hge. unfold Score.geb in Hbefore, Hge.
  apply negb_false_iff in Hbefore. apply negb_true_iff in Hge.
  match type of Hbefore with
  | Score.ltb ?x ?y = true => change (ScoreOrder.lt x y) in Hbefore
  end.
  match type of Hge with
  | Score.ltb ?x ?y = false => change (ScoreOrder.le y x) in Hge
  end.
  match goal with
  | |- Score.lt ?x ?y => change (ScoreOrder.lt x y)
  end.
  ScoreFacts.order.
Qed.

End TieBreaking.

Section WorkOnGameTrees.
Import GameTree.
#[local] Existing Instance GameTree.api.
#[local] Existing Instance GameTree.cfg.

(** Witness of X16. *)
Lemma nodes_expanded_at_most_full_tree_witness :
  1 ≤ depth (hurried 5) ∧
  ∃ r st', get_best_move 3 (hurried 5) = Some (r, st') ∧
    nodes_expanded st'
    ≤ Z.of_nat (root_tree_moves (Z.to_nat (depth (hurried 5)))
                  (board (hurried 5))).
Proof.
  assert (1 ≤ depth (hurried 5)) as Hd by (cbn; lia). split; [exact Hd|].
  destruct (get_best_move_total 3 (hurried 5)) as [[r st'] Hrun]; [cbn; lia..|].
  exists r, st'. split; [exact Hrun|].
  exact (nodes_expanded_at_most_full_tree (BoardLaws0 := game_tree_laws)
           3 (hurried 5) r st' Hd Hrun).
Defined.

(** Witness of X15. *)
Lemma earlier_moves_are_strictly_worse_witness :
  ∃ best st' i,
    get_best_move 3 relaxed = Some (Some best, st') ∧
    get_legal_moves (board relaxed) !! i = Some best ∧
    ∀ j mv, (j < i)%nat → get_legal_moves (board relaxed) !! j = Some mv →
      Score.lt
        (minimax (white_to_move (board relaxed)) (Z.to_nat (depth relaxed - 1))
           false (make_move mv (board relaxed)))
        (minimax (white_to_move (board relaxed)) (Z.to_nat (depth relaxed - 1))
           false (make_move best (board relaxed))).
Proof.
  apply (earlier_moves_are_strictly_worse (BoardLaws0 := game_tree_laws)
           3 relaxed).
  - by vm_compute.
  - cbn. lia.
  - by vm_compute.
  - intros k _. by vm_compute.
Defined.

End WorkOnGameTrees.

(** ** A deadline first seen by the root loop *)

Section UpToTheDeadline.
Context {cfg : Config} {api : BoardAPI} `{!BoardLaws api}.

Lemma quiet_out (st st' : State) :
  quiet st st' → (clock st < clock st')%nat → out_now st = false.
Proof.
  intros Hq Hlt. unfold out_now. apply Z.leb_gt. apply Hq. lia.
Qed.

Lemma quiet_within (st st' s s' : State) :
  quiet st st' → context_kept st s → (clock s' ≤ clock st')%nat → quiet s s'.
Proof.
  intros Hq [_ Hb Hs _ Hr Hc] Hc' k Hk. rewrite Hb, Hs, Hr. apply Hq. lia.
Qed.

Lemma max_loop_kept (child : Score → Score → M Score) moves value alpha beta st r st' :
  (∀ a b s r s', child a b s = Some (r, s') → context_kept s s') →
  max_loop child moves value alpha beta st = Some (r, st') →
  context_kept st st'.
Proof.
  intros Hchild Hrun.
  refine (max_loop_rel context_kept (λ _ _, True) kept_refl kept_trans kept_tick
            _ _ child Hchild moves value alpha beta st r st' _ Hrun);
    [intros s mv s2 _ []; by split | done | done].
Qed.

Lemma min_loop_kept (child : Score → Score → M Score) moves value alpha beta st r st' :
  (∀ a b s r s', child a b s = Some (r, s') → context_kept s s') →
  min_loop child moves value alpha beta st = Some (r, st') →
  context_kept st st'.
Proof.
  intros Hchild Hrun.
  refine (min_loop_rel context_kept (λ _ _, True) kept_refl kept_trans kept_tick
            _ _ child Hchild moves value alpha beta st r st' _ Hrun);
    [intros s mv s2 _ []; by split | done | done].
Qed.

Section Loops.
Variable child : Score → Score → M Score.
Variable rw : bool.
Variable b0 : Board.
Variable next : bool.
Variable d' : nat.
Hypothesis child_frame : ∀ a b s r s',
  child a b s = Some (r, s') → restored s s' ∧ context_kept s s'.
Hypothesis child_bracket : ∀ a b s r s',
  Score.lt a b → quiet s s' → root_is_white s = rw →
  child a b s = Some (r, s') →
  bracket a b r (minimax rw d' next (board s)).

Lemma max_loop_bracket_quiet (beta : Score) (moves : list Move) :
  ∀ value alpha alpha0 m st r st',
    board st = b0 → root_is_white st = rw → quiet st st' →
    (∀ mv, mv ∈ moves → mv ∈ get_legal_moves b0) →
    max_running alpha0 value m →
    alpha = Score.max alpha0 value →
    Score.lt alpha beta →
    max_loop child moves value alpha beta st = Some (r, st') →
    bracket alpha0 beta r
      (Score.max m (foldr Score.max NegInf
         ((λ mv, minimax rw d' next (make_move mv b0)) <$> moves))).
Proof.
  induction moves as [|mv moves IH];
    intros value alpha alpha0 m st r st' Hb Hrw Hq Hin Hrun -> Hlt Hloop.
  { injection Hloop as <- _. by apply max_done. }
  cbn [max_loop] in Hloop. unfold bind at 1 in Hloop.
  rewrite out_of_time_run in Hloop.
  destruct (out_now st) eqn:Hout.
  { injection Hloop as _ <-. rewrite quiet_out with (st' := tick st) in Hout;
      [done|done|cbn; lia]. }
  unfold bind, board_make_move, count_node, board_undo_move in Hloop.
  cbn [nodes_expanded board set_board tick] in Hloop.
  match type of Hloop with
  | match child ?a ?b ?s with _ => _ end = _ =>
      destruct (child a b s) as [[c s2]|] eqn:Hchild; [|done]
  end.
  pose proof (child_frame _ _ _ _ _ Hchild) as [Hres Hkept].
  destruct (pass_frame st s2 mv) as [Hb3 Hk3];
    [rewrite Hb; apply Hin; left|done..|].
  assert (clock s2 ≤ clock st')%nat as Hc2.
  { destruct (Score.geb _ _).
    - by injection Hloop as _ <-.
    - apply max_loop_kept in Hloop as [_ _ _ _ _ Hc]; [done|].
      intros a b s r' s' Hr'. by apply child_frame in Hr' as [_ ?]. }
  apply child_bracket in Hchild; [|done| |by rewrite <- Hrw].
  2:{ eapply quiet_within; [exact Hq| |exact Hc2]. split; cbn; try done. lia. }
  cbn [board set_nodes_expanded set_board] in Hchild. rewrite Hb in Hchild.
  cbn [fmap list_fmap foldr]. rewrite score_max_assoc.
  destruct (Score.geb _ _) eqn:Hcut.
  - injection Hloop as <- _. by apply max_step_cut.
  - destruct (max_step_on _ _ _ _ _ _ Hrun Hlt Hchild Hcut) as (Hrun' & Ha & Hlt').
    rewrite Ha in Hloop. eapply IH in Hloop; eauto.
    + congruence.
    + by rewrite (kept_root _ _ Hk3).
    + by eapply quiet_within.
    + intros mv' Hmv'. apply Hin. by right.
Qed.

Lemma min_loop_bracket_quiet (alpha : Score) (moves : list Move) :
  ∀ value beta beta0 m st r st',
    board st = b0 → root_is_white st = rw → quiet st st' →
    (∀ mv, mv ∈ moves → mv ∈ get_legal_moves b0) →
    min_running beta0 value m →
    beta = Score.min beta0 value →
    Score.lt alpha beta →
    min_loop child moves value alpha beta st = Some (r, st') →
    bracket alpha beta0 r
      (Score.min m (foldr Score.min PosInf
         ((λ mv, minimax rw d' next (make_move mv b0)) <$> moves))).
Proof.
  induction moves as [|mv moves IH];
    intros value beta beta0 m st r st' Hb Hrw Hq Hin Hrun -> Hlt Hloop.
  { injection Hloop as <- _. by apply min_done. }
  cbn [min_loop] in Hloop. unfold bind at 1 in Hloop.
  rewrite out_of_time_run in Hloop.
  destruct (out_now st) eqn:Hout.
  { injection Hloop as _ <-. rewrite quiet_out with (st' := tick st) in Hout;
      [done|done|cbn; lia]. }
  unfold bind, board_make_move, count_node, board_undo_move in Hloop.
  cbn [nodes_expanded board set_board tick] in Hloop.
  match type of Hloop with
  | match child ?a ?b ?s with _ => _ end = _ =>
      destruct (child a b s) as [[c s2]|] eqn:Hchild; [|done]
  end.
  pose proof (child_frame _ _ _ _ _ Hchild) as [Hres Hkept].
  destruct (pass_frame st s2 mv) as [Hb3 Hk3];
    [rewrite Hb; apply Hin; left|done..|].
  assert (clock s2 ≤ clock st')%nat as Hc2.
  { destruct (Score.geb _ _).
    - by injection Hloop as _ <-.
    - apply min_loop_kept in Hloop as [_ _ _ _ _ Hc]; [done|].
      intros a b s r' s' Hr'. by apply child_frame in Hr' as [_ ?]. }
  apply child_bracket in Hchild; [|done| |by rewrite <- Hrw].
  2:{ eapply quiet_within; [exact Hq| |exact Hc2]. split; cbn; try done. lia. }
  cbn [board set_nodes_expanded set_board] in Hchild. rewrite Hb in Hchild.
  cbn [fmap list_fmap foldr]. rewrite score_min_assoc.
  destruct (Score.geb _ _) eqn:Hcut.
  - injection Hloop as <- _. by apply min_step_cut.
  - destruct (min_step_on _ _ _ _ _ _ Hrun Hlt Hchild Hcut) as (Hrun' & Ha & Hlt').
    rewrite Ha in Hloop. eapply IH in Hloop; eauto.
    + congruence.
    + by rewrite (kept_root _ _ Hk3).
    + by eapply quiet_within.
    + intros mv' Hmv'. apply Hin. by right.
Qed.

End Loops.

(** A call of [_alphabeta] during which no clock reading reached the
    budget brackets the minimax value of its node. *)
Lemma alphabeta_bracket_quiet (fuel : nat) :
  ∀ d alpha beta maximizing st r st',
    0 ≤ d → Score.lt alpha beta → quiet st st' →
    _alphabeta fuel d alpha beta maximizing st = Some (r, st') →
    bracket alpha beta r
      (minimax (root_is_white st) (Z.to_nat d) maximizing (board st)).
Proof.
  induction fuel as [|fuel IH];
    intros d alpha beta maximizing st r st' Hd Hlt Hq Hrun; [done|].
  pose proof (alphabeta_kept _ _ _ _ _ _ _ _ Hrun) as Hkept.
  cbn [_alphabeta] in Hrun. unfold bind at 1 in Hrun.
  rewrite out_of_time_run in Hrun.
  destruct (out_now st) eqn:Hout.
  { injection Hrun as _ <-. rewrite quiet_out with (st' := tick st) in Hout;
      [done|done|cbn; lia]. }
  unfold bind at 1, read_board at 1 in Hrun. cbn [board tick] in Hrun.
  rewrite minimax_unfold.
  destruct (String.eqb _ "checkmate").
  { injection Hrun as <- _. apply bracket_refl. }
  destruct (String.eqb _ "stalemate").
  { injection Hrun as <- _. apply bracket_refl. }
  cbn [orb] in Hrun. destruct (Z.eqb_spec d 0) as [->|Hne].
  { injection Hrun as <- _. apply bracket_refl. }
  replace (Z.to_nat d) with (S (Z.to_nat (d - 1))) by lia.
  unfold bind at 1, read_board at 1 in Hrun. cbn [board tick] in Hrun.
  destruct (get_legal_moves (board st)) as [|mv moves] eqn:Hmoves.
  { injection Hrun as <- _. apply bracket_refl. }
  assert (quiet (tick st) st') as Hq'.
  { eapply quiet_within; [exact Hq|apply kept_tick|done]. }
  destruct maximizing.
  - eapply (max_loop_bracket_quiet _ (root_is_white st) (board st) false
              (Z.to_nat (d - 1))) in Hrun.
    + rewrite score_max_neginf_l in Hrun. exact Hrun.
    + intros a b s r' s'. apply alphabeta_frame.
    + intros a b s r' s' Hab Hs <- Hr'. eapply IH; [| | |exact Hr']; [lia|done..].
    + done.
    + done.
    + done.
    + by rewrite Hmoves.
    + split; [done|]. by intros [].
    + by rewrite score_max_neginf_r.
    + done.
  - eapply (min_loop_bracket_quiet _ (root_is_white st) (board st) true
              (Z.to_nat (d - 1))) in Hrun.
    + rewrite score_min_posinf_l in Hrun. exact Hrun.
    + intros a b s r' s'. apply alphabeta_frame.
    + intros a b s r' s' Hab Hs <- Hr'. eapply IH; [| | |exact Hr']; [lia|done..].
    + done.
    + done.
    + done.
    + by rewrite Hmoves.
    + split; [done|]. intros Hinf. by destruct beta.
    + by rewrite score_min_posinf_r.
    + done.
Qed.

(** The root loop reads the clock before anything else. *)
Lemma root_loop_ticks (fuel : nat) (moves : list Move) best_move best_val alpha st r st' :
  moves ≠ [] →
  root_loop fuel moves best_move best_val alpha st = Some (r, st') →
  (clock st < clock st')%nat.
Proof.
  destruct moves as [|mv moves]; [done|]. intros _ Hrun.
  cbn [root_loop] in Hrun. unfold bind at 1 in Hrun.
  rewrite out_of_time_run in Hrun. destruct (out_now st).
  { injection Hrun as _ <-. cbn. lia. }
  unfold bind, board_make_move, count_node, board_undo_move, read_depth,
    note_examined in Hrun.
  destruct (_alphabeta _ _ _ _ _ _) as [[val s2]|] eqn:Hchild; [|done].
  apply alphabeta_kept in Hchild as [_ _ _ _ _ Hc2]. cbn in Hc2.
  destruct (Score.ltb best_val val);
    apply root_loop_kept in Hrun as [_ _ _ _ _ Hc]; cbn in Hc; lia.
Qed.

(** The root loop when only its own check can have seen the deadline:
    every reading before the last one stayed under the budget, and the
    loop stopped with moves left.  [seen] are the moves gone through
    before, [n] the number of moves gone through by this run. *)
Lemma root_loop_upto_deadline (fuel : nat) (b0 : Board) (rw : bool) (dz : Z)
    (moves : list Move) :
  ∀ seen best_move best_val alpha st r st',
    board st = b0 → root_is_white st = rw → depth st = dz → 1 ≤ dz →
    (∀ mv, mv ∈ moves → mv ∈ get_legal_moves b0) →
    let scored := λ mv, (mv, minimax rw (Z.to_nat (dz - 1)) false (make_move mv b0)) in
    best_val = best_value (scored <$> seen) →
    alpha = best_val →
    Score.lt best_val PosInf →
    match seen with
    | [] => ∀ m, head moves = Some m → m = best_move
    | _ :: _ => best_of (scored <$> seen) = Some best_move
    end →
    root_loop fuel moves best_move best_val alpha st = Some (r, st') →
    (∀ k, (clock st ≤ k < clock st' - 1)%nat →
          readings st k - start_time st < time_budget st) →
    (length (examined st') < length (examined st) + length moves)%nat →
    ∃ n, length (examined st') = (length (examined st) + n)%nat ∧
         (n < length moves)%nat ∧
         match seen ++ take n moves with
         | [] => r = best_move
         | _ :: _ => best_of (scored <$> (seen ++ take n moves)) = Some r
         end.
Proof.
  induction moves as [|mv moves IH];
    intros seen best_move best_val alpha st r st' Hb Hrw Hdz Hd Hin scored
      Hval -> Hfin Hbest Hrun Hq Hstop.
  { injection Hrun as _ <-. cbn in Hstop. lia. }
  pose proof Hrun as Hwhole.
  cbn [root_loop] in Hrun. unfold bind at 1 in Hrun.
  rewrite out_of_time_run in Hrun.
  destruct (out_now st) eqn:Hout.
  { injection Hrun as <- <-. exists 0%nat. cbn [take examined tick length].
    rewrite app_nil_r. split; [lia|]. split; [lia|]. by destruct seen. }
  unfold bind, board_make_move, count_node, board_undo_move, read_depth,
    note_examined in Hrun.
  cbn [nodes_expanded board depth set_board set_nodes_expanded tick] in Hrun.
  destruct (_alphabeta _ _ _ _ _ _) as [[c s2]|] eqn:Hchild; [|done].
  pose proof (alphabeta_frame _ _ _ _ _ _ _ _ Hchild) as [Hres Hkept].
  pose proof (alphabeta_examined _ _ _ _ _ _ _ _ Hchild) as Hex2.
  cbn [examined set_nodes_expanded set_board tick] in Hex2.
  destruct (pass_frame st s2 mv) as [Hb3 Hk3];
    [rewrite Hb; apply Hin; left|done..|].
  destruct Hk3 as [Kd Kb Ks Kr Krd Kc]. cbn in Kd, Kb, Ks, Kr, Krd, Kc, Hb3.
  cbn [examined set_board] in Hrun. rewrite Hex2 in Hrun.
  assert (moves ≠ []) as Hmore.
  { intros ->. destruct (Score.ltb best_val c); injection Hrun as _ <-;
      cbn in Hstop; rewrite length_app in Hstop; cbn in Hstop; lia. }
  assert (clock s2 < clock st')%nat as Hc2.
  { destruct (Score.ltb best_val c);
      apply root_loop_ticks in Hrun; try done; cbn in Hrun; lia. }
  apply alphabeta_bracket_quiet in Hchild; [|lia|done|].
  2:{ intros k Hk. cbn in Hk |- *. apply Hq. lia. }
  cbn [board root_is_white set_nodes_expanded set_board tick] in Hchild.
  rewrite Hb, Hrw, Hdz in Hchild.
  destruct (root_step best_val c _ (minimax_fin _ _ _ _) Hchild) as [Hup Hkeep].
  assert (scored <$> seen ++ [mv] = (scored <$> seen) ++ [scored mv]) as Hsnoc
    by (by rewrite fmap_app).
  assert (∀ n, seen ++ take (S n) (mv :: moves) = (seen ++ [mv]) ++ take n moves)
    as Htake by (intros n; by rewrite <- app_assoc).
  assert (∀ l k, (clock (set_examined l (set_board (undo_move (board s2)) UndoMove s2))
                   ≤ k < clock st' - 1)%nat →
           readings (set_examined l (set_board (undo_move (board s2)) UndoMove s2)) k
           - start_time (set_examined l (set_board (undo_move (board s2)) UndoMove s2))
           < time_budget (set_examined l (set_board (undo_move (board s2)) UndoMove s2)))
    as Hq3.
  { intros l k Hk. cbn in Hk |- *. rewrite Kb, Ks, Krd. apply Hq. lia. }
  destruct (Score.ltb best_val c) eqn:Hcmp.
  - specialize (Hup eq_refl). subst c.
    eapply (IH (seen ++ [mv])) in Hrun.
    + destruct Hrun as (n & Hlen & Hn & Hr). exists (S n).
      cbn [examined set_examined] in Hlen. rewrite length_app in Hlen.
      cbn [length] in Hlen |- *. split; [lia|]. split; [lia|].
      rewrite Htake. fold scored in Hr.
      destruct ((seen ++ [mv]) ++ take n moves) eqn:Hall;
        [by destruct seen|exact Hr].
    + cbn. congruence.
    + cbn. congruence.
    + cbn. congruence.
    + done.
    + intros mv' Hmv'. apply Hin. by right.
    + fold scored. rewrite Hsnoc. unfold scored at 2.
      rewrite best_value_snoc, <- Hval. unfold Score.max. by rewrite Hcmp.
    + unfold Score.max. by rewrite Hcmp.
    + pose proof (minimax_fin rw (Z.to_nat (dz - 1)) false (make_move mv b0)).
      by destruct (minimax _ _ _ _).
    + fold scored. apply match_nonempty; [by destruct seen|].
      rewrite Hsnoc. apply best_of_snoc_greater. by rewrite <- Hval.
    + apply Hq3.
    + cbn [examined set_examined] in Hstop |- *. rewrite length_app.
      cbn [length] in Hstop |- *. lia.
  - specialize (Hkeep eq_refl).
    eapply (IH (seen ++ [mv])) in Hrun.
    + destruct Hrun as (n & Hlen & Hn & Hr). exists (S n).
      cbn [examined set_examined] in Hlen. rewrite length_app in Hlen.
      cbn [length] in Hlen |- *. split; [lia|]. split; [lia|].
      rewrite Htake. fold scored in Hr.
      destruct ((seen ++ [mv]) ++ take n moves) eqn:Hall;
        [by destruct seen|exact Hr].
    + cbn. congruence.
    + cbn. congruence.
    + cbn. congruence.
    + done.
    + intros mv' Hmv'. apply Hin. by right.
    + fold scored. rewrite Hsnoc. unfold scored at 2.
      rewrite best_value_snoc, <- Hval. unfold Score.max. by rewrite Hkeep.
    + unfold Score.max. by rewrite Hcmp.
    + done.
    + fold scored. destruct seen as [|m0 seen'] eqn:Hseen.
      * cbn in Hval. subst best_val.
        pose proof (minimax_fin rw (Z.to_nat (dz - 1)) false (make_move mv b0)).
        by destruct (minimax _ _ _ _).
      * rewrite <- Hseen in *. apply match_nonempty; [by destruct seen|].
        rewrite Hsnoc. apply best_of_snoc_keep; [by rewrite <- Hval|].
        by rewrite Hseen in *.
    + apply Hq3.
    + cbn [examined set_examined] in Hstop |- *. rewrite length_app.
      cbn [length] in Hstop |- *. lia.
Qed.

Lemma take_own_length {A : Type} (n : nat) (l : list A) :
  take (length (take n l)) l = take n l.
Proof.
  rewrite length_take. destruct (decide (n ≤ length l)%nat).
  - by rewrite Nat.min_l.
  - rewrite Nat.min_r by lia. by rewrite !take_ge by lia.
Qed.


End UpToTheDeadline.

Section DeadlineOnGameTrees.
Import GameTree.
#[local] Existing Instance GameTree.api.
#[local] Existing Instance GameTree.cfg.


End DeadlineOnGameTrees.
